(** * receipt-tracker: the Drive poller, the monthly footer, the reconciler

    A shallow embedding of [poller/poller.js] (the Apps Script that scans a
    Drive folder and posts new files to the Ingress function) and of the
    [MONTH TOTAL] footer formula of the README, with the properties the
    design document states about them and further properties of the code.
    The Sheets Writer and the Validator/Reconciler are Cloud Functions whose
    code is not in the repository's sources; what is proved about them is
    proved about a model written from the design document, and is marked
    so.

    Conventions of the embedding.
    - Script properties ([PropertiesService.getScriptProperties()]) are a
      finite map from property names to strings; [getProperty] of an unset
      name is JavaScript's [null], here [None].
    - Strings are byte strings.  File ids, property values and ISO time
      stamps are ASCII in practice.
    - A JavaScript number that the poller computes with is either [NaN] or an
      integer, see [JsNumber].
    - The three services the script talks to (the clock, [Drive.Files.list],
      [UrlFetchApp.fetch]) are the fields of an environment [Env]; everything
      the script does to the outside is appended to a trace of [Event]s.
    - An uncaught exception ends the invocation; the properties written
      before it stay written. *)

From Stdlib Require Import ZArith Ascii String List Lia.
From stdpp Require Import base option list gmap strings.

Local Open Scope string_scope.
Local Open Scope Z_scope.

(* ===================================================================== *)
(** ** JSON text of arrays of strings                                     *)
(* ===================================================================== *)

(** [SEEN_IDS_JSON] holds [JSON.stringify] of an array of file ids, and is
    read back with [JSON.parse].  This module gives both for arrays of
    strings. *)
Module JSON.

Definition dquote : ascii := "034"%char.
Definition backslash : ascii := "092"%char.

Definition hex_digit (n : N) : ascii :=
  if (n <? 10)%N then ascii_of_N (48 + n) else ascii_of_N (87 + n).

(** QuoteJSONString on one character: the two-character escapes, [\u00XX]
    for the other control characters, the character itself otherwise. *)
Definition escape_char (c : ascii) : string :=
  let n := N_of_ascii c in
  if (n =? 34)%N then String backslash (String dquote "")
  else if (n =? 92)%N then String backslash (String backslash "")
  else if (n =? 8)%N then String backslash "b"
  else if (n =? 12)%N then String backslash "f"
  else if (n =? 10)%N then String backslash "n"
  else if (n =? 13)%N then String backslash "r"
  else if (n =? 9)%N then String backslash "t"
  else if (n <? 32)%N then
    String backslash
      (String "u" (String "0" (String "0"
         (String (hex_digit (n / 16)) (String (hex_digit (n mod 16)) "")))))
  else String c "".

Fixpoint escape (s : string) : string :=
  match s with
  | "" => ""
  | String c s' => escape_char c ++ escape s'
  end.

Definition quote (s : string) : string :=
  String dquote (escape s ++ String dquote "").

Fixpoint stringify_tail (l : list string) : string :=
  match l with
  | [] => "]"
  | x :: l' => String "," (quote x ++ stringify_tail l')
  end.

(** [JSON.stringify(arr)] for an array of strings: no white space, elements
    separated by commas. *)
Definition stringify (l : list string) : string :=
  match l with
  | [] => "[]"
  | x :: l' => String "[" (quote x ++ stringify_tail l')
  end.

(** The parser is a one-pass automaton.  [done] holds the elements read so
    far, last first; [cur] the characters of the element being read, last
    first. *)
Inductive pstate : Type :=
  | PStart
  | POpen
  | PInStr (done : list string) (cur : list ascii)
  | PEsc (done : list string) (cur : list ascii)
  | PUni (done : list string) (cur : list ascii) (k : nat) (v : N)
  | PAfterVal (done : list string)
  | PAfterComma (done : list string)
  | PEnd (done : list string).

Definition is_ws (c : ascii) : bool :=
  let n := N_of_ascii c in
  ((n =? 32) || (n =? 9) || (n =? 10) || (n =? 13))%N.

Definition hex_val (c : ascii) : option N :=
  let n := N_of_ascii c in
  if ((48 <=? n) && (n <=? 57))%N then Some (n - 48)%N
  else if ((97 <=? n) && (n <=? 102))%N then Some (n - 87)%N
  else if ((65 <=? n) && (n <=? 70))%N then Some (n - 55)%N
  else None.

Definition finish (cur : list ascii) : string :=
  string_of_list_ascii (rev cur).

Definition step (st : pstate) (c : ascii) : option pstate :=
  let n := N_of_ascii c in
  match st with
  | PStart =>
      if is_ws c then Some PStart
      else if (n =? 91)%N then Some POpen else None
  | POpen =>
      if is_ws c then Some POpen
      else if (n =? 93)%N then Some (PEnd [])
      else if (n =? 34)%N then Some (PInStr [] [])
      else None
  | PInStr done cur =>
      if (n =? 34)%N then Some (PAfterVal (finish cur :: done))
      else if (n =? 92)%N then Some (PEsc done cur)
      else if (n <? 32)%N then None
      else Some (PInStr done (c :: cur))
  | PEsc done cur =>
      if (n =? 34)%N then Some (PInStr done (dquote :: cur))
      else if (n =? 92)%N then Some (PInStr done (backslash :: cur))
      else if (n =? 47)%N then Some (PInStr done ("/"%char :: cur))
      else if (n =? 98)%N then Some (PInStr done ("008"%char :: cur))
      else if (n =? 102)%N then Some (PInStr done ("012"%char :: cur))
      else if (n =? 110)%N then Some (PInStr done ("010"%char :: cur))
      else if (n =? 114)%N then Some (PInStr done ("013"%char :: cur))
      else if (n =? 116)%N then Some (PInStr done ("009"%char :: cur))
      else if (n =? 117)%N then Some (PUni done cur 0 0%N)
      else None
  | PUni done cur k v =>
      match hex_val c with
      | None => None
      | Some h =>
          let v' := (v * 16 + h)%N in
          if (k <? 3)%nat then Some (PUni done cur (S k) v')
          else if (v' <? 128)%N then Some (PInStr done (ascii_of_N v' :: cur))
          else None
      end
  | PAfterVal done =>
      if is_ws c then Some (PAfterVal done)
      else if (n =? 44)%N then Some (PAfterComma done)
      else if (n =? 93)%N then Some (PEnd done)
      else None
  | PAfterComma done =>
      if is_ws c then Some (PAfterComma done)
      else if (n =? 34)%N then Some (PInStr done [])
      else None
  | PEnd done =>
      if is_ws c then Some (PEnd done) else None
  end.

Fixpoint run (st : pstate) (s : string) : option pstate :=
  match s with
  | "" => Some st
  | String c s' =>
      match step st c with
      | Some st' => run st' s'
      | None => None
      end
  end.

(** [JSON.parse(raw)] when [raw] is the JSON text of an array of strings.
    [None] stands for every other text: texts that make [JSON.parse] throw a
    SyntaxError, texts of other JSON values, and [\uXXXX] escapes beyond
    ASCII, which a byte string cannot hold as one character. *)
Definition parse (raw : string) : option (list string) :=
  match run PStart raw with
  | Some (PEnd done) => Some (rev done)
  | _ => None
  end.

End JSON.

(* ===================================================================== *)
(** ** Numbers and dates                                                  *)
(* ===================================================================== *)

(** The numbers of the poller: [parseInt] gives an integer or [NaN], and the
    script only subtracts and multiplies them.  [None] is [NaN].

    The embedding computes in [Z] where JavaScript computes in doubles.  The
    two agree on every run with a real clock: a [parseInt] result or a
    product [lookbackMinutes * 60 * 1000] that is not exact as a double is at
    least 2^53 in absolute value, so that subtracting it from the clock
    leaves the range of time values (8.64e15 ms either side of the epoch)
    both in doubles and in [Z], and [new Date] of it is an invalid date in
    both. *)
Definition JsNumber : Type := option Z.

Module JsDate.

(** A [Date] object is its time value in milliseconds since the epoch, or
    [None] for an invalid date (time value [NaN]). *)
Definition t : Type := option Z.

Definition max_time : Z := 8640000000000000.

(** [new Date(value)]: TimeClip. *)
Definition of_number (x : JsNumber) : t :=
  match x with
  | Some v => if (Z.abs v <=? max_time) then Some v else None
  | None => None
  end.

Definition getTime (d : t) : JsNumber := d.

Definition ms_per_day : Z := 86400000.

(** Year, month and day of the proleptic Gregorian calendar from the number
    of days since 1970-01-01. *)
Definition civil_from_days (days : Z) : Z * Z * Z :=
  let z := days + 719468 in
  let era := z / 146097 in
  let doe := z - era * 146097 in
  let yoe := (doe - doe / 1460 + doe / 36524 - doe / 146096) / 365 in
  let y := yoe + era * 400 in
  let doy := doe - (365 * yoe + yoe / 4 - yoe / 100) in
  let mp := (5 * doy + 2) / 153 in
  let d := doy - (153 * mp + 2) / 5 + 1 in
  let m := if mp <? 10 then mp + 3 else mp - 9 in
  (if m <=? 2 then y + 1 else y, m, d).

Definition digit (n : Z) : ascii := ascii_of_N (48 + Z.to_N (n mod 10)).

(** The last [k] decimal digits of [n], most significant first. *)
Fixpoint pad (k : nat) (n : Z) : string :=
  match k with
  | O => ""
  | S k' => pad k' (n / 10) ++ String (digit n) ""
  end.

Definition year_string (y : Z) : string :=
  if (0 <=? y) && (y <=? 9999) then pad 4 y
  else if y <? 0 then String "-" (pad 6 (- y))
  else String "+" (pad 6 y).

Definition format (v : Z) : string :=
  let days := v / ms_per_day in
  let ms := v mod ms_per_day in
  let '(y, m, d) := civil_from_days days in
  year_string y ++ "-" ++ pad 2 m ++ "-" ++ pad 2 d ++ "T"
    ++ pad 2 (ms / 3600000) ++ ":" ++ pad 2 (ms / 60000 mod 60) ++ ":"
    ++ pad 2 (ms / 1000 mod 60) ++ "." ++ pad 3 (ms mod 1000) ++ "Z".

(** [date.toISOString()]; [None] is the RangeError on an invalid date. *)
Definition toISOString (d : t) : option string :=
  match d with
  | Some v => Some (format v)
  | None => None
  end.

End JsDate.

(* ===================================================================== *)
(** ** The poller: [poller/poller.js]                                     *)
(* ===================================================================== *)

Module Poller.

Abbreviation Props := (gmap string string).

(** *** The services the script talks to *)

(** A file of a [Drive.Files.list] response, with the requested fields. *)
Record DriveFile : Type := {
  id : string;
  name : string;
  mimeType : string;
  createdTime : string
}.

(** The argument object of [Drive.Files.list]. *)
Record ListArgs : Type := {
  q : string;
  orderBy : string;
  pageToken : option string;
  includeItemsFromAllDrives : bool;
  supportsAllDrives : bool;
  fields : string
}.

(** What the Drive answers to a first call and to the calls that follow its
    page tokens: the call throws, or it returns a page without
    [nextPageToken], or a page with one and the answer to the call made with
    that token.  [files] is [None] when the response has no [files]. *)
Inductive Listing : Type :=
  | ListThrow (msg : string)
  | ListEnd (files : option (list DriveFile))
  | ListMore (files : option (list DriveFile)) (nextPageToken : string)
             (rest : Listing).

(** The object posted to the Ingress function. *)
Record Payload : Type := {
  fileId : string;
  p_name : string;
  p_mimeType : string;
  p_createdTime : string;
  folderId : string
}.

(** The options of [UrlFetchApp.fetch]; [payload] stands for the JSON text
    of the object. *)
Record FetchOptions : Type := {
  method : string;
  contentType : string;
  payload : Payload;
  x_api_key : string;
  muteHttpExceptions : bool
}.

(** [UrlFetchApp.fetch] throws or returns a response, of which the script
    reads the code and the content text. *)
Inductive FetchResult : Type :=
  | FetchError (e : string)
  | FetchResponse (code : Z) (content : string).

(** The environment of one invocation: the clock read by [new Date()], the
    Drive's answer to a first [list] call, and the outcome of the [k]-th
    call of [UrlFetchApp.fetch] (counting from 0). *)
Record Env : Type := {
  now : Z;
  drive : ListArgs -> Listing;
  fetch : nat -> string -> FetchOptions -> FetchResult
}.

Inductive Warning : Type :=
  | WarnResponse (code : Z) (content : string)
  | WarnError (attempt : Z) (e : string).

(** What an invocation does to the outside, in order. *)
Inductive Event : Type :=
  | EvSetProperty (key value : string)
  | EvList (args : ListArgs)
  | EvFetch (url : string) (options : FetchOptions) (res : FetchResult)
  | EvSleep (ms : Z)
  | EvWarn (w : Warning)
  | EvLog (count : Z) (sinceIso : string).

Record World : Type := {
  props : Props;
  fetches : nat;
  trace : list Event
}.

(** The exceptions that end an invocation: the [Error] of [loadConfig], the
    RangeError of [toISOString] on an invalid date, an exception of
    [Drive.Files.list], and [SeenIdsUnreadable] for a stored SEEN_IDS_JSON
    that is not the JSON text of an array of strings.  On such a text
    [JSON.parse] throws a SyntaxError, or the script goes on with a value
    that the embedding does not describe; the script itself only ever
    stores arrays of strings. *)
Inductive Error : Type :=
  | MissingProperties
  | RangeError
  | SeenIdsUnreadable
  | DriveError (msg : string).

(** *** A state and exception monad *)

Inductive Completion (A : Type) : Type :=
  | Normal (a : A)
  | Throw (e : Error).
Arguments Normal {A} a.
Arguments Throw {A} e.

Definition M (A : Type) : Type := World -> Completion A * World.

Definition ret {A : Type} (a : A) : M A := fun w => (Normal a, w).

Definition bind {A B : Type} (m : M A) (f : A -> M B) : M B := fun w =>
  match m w with
  | (Normal a, w') => f a w'
  | (Throw e, w') => (Throw e, w')
  end.

Notation "'do' x <- m ; k" := (bind m (fun x => k))
  (at level 10, x name, m at level 100, k at level 200,
   format "'[v' 'do'  x  <-  m ; '/' k ']'").
Notation "'do' ' p <- m ; k" := (bind m (fun x => let 'p := x in k))
  (at level 10, p pattern, m at level 100, k at level 200,
   format "'[v' 'do'  ' p  <-  m ; '/' k ']'").
Notation "'exec' m ; k" := (bind m (fun _ => k))
  (at level 10, m at level 100, k at level 200,
   format "'[v' 'exec'  m ; '/' k ']'").

Definition throw {A : Type} (e : Error) : M A := fun w => (Throw e, w).

Definition emit (ev : Event) : M unit := fun w =>
  (Normal tt,
   {| props := props w; fetches := fetches w; trace := trace w ++ [ev] |}).

(** [PROP.getProperty(key)]. *)
Definition getProperty (key : string) : M (option string) := fun w =>
  (Normal (props w !! key), w).

(** [PROP.setProperty(key, value)]. *)
Definition setProperty (key value : string) : M unit := fun w =>
  (Normal tt,
   {| props := <[key := value]> (props w); fetches := fetches w;
      trace := trace w ++ [EvSetProperty key value] |}).

(** [UrlFetchApp.fetch(url, options)], as a value: its exception is caught
    by the only caller. *)
Definition urlFetch (env : Env) (url : string) (options : FetchOptions)
  : M FetchResult := fun w =>
  let res := fetch env (fetches w) url options in
  (Normal res,
   {| props := props w; fetches := S (fetches w);
      trace := trace w ++ [EvFetch url options res] |}).

(** *** JavaScript values *)

(** [!x] for a property value: [null] and the empty string are falsy. *)
Definition falsy (x : option string) : bool :=
  match x with
  | None => true
  | Some s => if decide (s = "") then true else false
  end.

(** [x || d] for a property value. *)
Definition or_default (x : option string) (d : string) : string :=
  match x with
  | Some s => if decide (s = "") then d else s
  | None => d
  end.

Definition is_space (c : ascii) : bool :=
  let n := N_of_ascii c in
  ((n =? 32) || ((9 <=? n) && (n <=? 13)))%N.

Fixpoint trim_start (s : string) : string :=
  match s with
  | String c s' => if is_space c then trim_start s' else s
  | "" => ""
  end.

Definition digit_val (c : ascii) : option Z :=
  let n := N_of_ascii c in
  if ((48 <=? n) && (n <=? 57))%N then Some (Z.of_N n - 48) else None.

(** The value of the longest prefix of decimal digits, [acc] being the value
    of the digits before [s]; [None] when there is no digit at all. *)
Fixpoint digits (acc : option Z) (s : string) : option Z :=
  match s with
  | String c s' =>
      match digit_val c with
      | Some d => digits (Some (10 * default 0 acc + d)) s'
      | None => acc
      end
  | "" => acc
  end.

(** [parseInt(s, 10)]: leading white space (the ASCII part of it), a sign,
    then decimal digits; [NaN] when no digit follows. *)
Definition parseInt (s : string) : JsNumber :=
  match trim_start s with
  | String "-" s' => Z.opp <$> digits None s'
  | String "+" s' => digits None s'
  | s' => digits None s'
  end.

(** The texts of ASCII characters.  On these [parseInt] above is the one of
    JavaScript, up to the rounding of an integer beyond 2^53 to a Number: of
    the white space that JavaScript skips, [trim_start] knows the ASCII part
    only. *)
Definition ascii_text (s : string) : bool :=
  forallb (fun c => (N_of_ascii c <? 128)%N) (list_ascii_of_string s).

Definition num_sub (x y : JsNumber) : JsNumber :=
  match x, y with
  | Some a, Some b => Some (a - b)
  | _, _ => None
  end.

Definition num_mul (x y : JsNumber) : JsNumber :=
  match x, y with
  | Some a, Some b => Some (a * b)
  | _, _ => None
  end.

(** A [Set] of strings: its elements in insertion order, without
    duplicates. *)
Abbreviation JsSet := (list string).

Definition set_has (s : JsSet) (x : string) : bool := bool_decide (x ∈ s).

Definition set_add (s : JsSet) (x : string) : JsSet :=
  if set_has s x then s else s ++ [x].

(** [new Set(arr)]. *)
Definition set_of_array (arr : list string) : JsSet :=
  fold_left set_add arr [].

(** [arr.slice(-n)]: the last [n] elements, all of them when there are
    fewer. *)
Definition slice_last {A : Type} (n : nat) (arr : list A) : list A :=
  drop (length arr - n) arr.

(** *** The script *)

Record Config : Type := {
  cfg_folderId : string;
  endpoint : string;
  apiKey : string;
  lookbackMinutes : JsNumber
}.

Definition loadConfig : M Config :=
  do folderId <- getProperty "FOLDER_ID";
  do endpoint <- getProperty "INGRESS_URL";
  do apiKey <- getProperty "API_KEY";
  do lookbackRaw <- getProperty "LOOKBACK_MINUTES";
  let lookback := parseInt (or_default lookbackRaw "5") in
  if falsy folderId || falsy endpoint || falsy apiKey
  then throw MissingProperties
  else ret {| cfg_folderId := default "" folderId;
               endpoint := default "" endpoint;
               apiKey := default "" apiKey;
               lookbackMinutes := lookback |}.

(** [date.toISOString()] in the monad. *)
Definition isoString (d : JsDate.t) : M string :=
  match JsDate.toISOString d with
  | Some s => ret s
  | None => throw RangeError
  end.

Definition computeSinceIso (env : Env) (lookbackMinutes : JsNumber)
  : M string :=
  let now := Some (now env) in
  let since :=
    JsDate.of_number
      (num_sub (JsDate.getTime now)
               (num_mul (num_mul lookbackMinutes (Some 60)) (Some 1000))) in
  do nowIso <- isoString now;
  exec setProperty "LAST_RUN_ISO" nowIso;
  isoString since.

Definition loadSeenIds : M JsSet :=
  do stored <- getProperty "SEEN_IDS_JSON";
  let raw := or_default stored "[]" in
  match JSON.parse raw with
  | Some arr => ret (set_of_array (slice_last 500 arr))
  | None => throw SeenIdsUnreadable
  end.

Definition persistSeenIds (seenSet : JsSet) : M unit :=
  let arr := seenSet in
  let trimmed := slice_last 500 arr in
  setProperty "SEEN_IDS_JSON" (JSON.stringify trimmed).

Definition success (code : Z) : bool := (200 <=? code) && (code <? 300).

(** The [for] loop of [postToIngress], entered with counter [i] and [n]
    iterations left ([n = attempts - i + 1]). *)
Fixpoint postAttempts (env : Env) (url : string) (options : FetchOptions)
    (n : nat) (i : Z) : M bool :=
  match n with
  | O => ret false
  | S n' =>
      do res <- urlFetch env url options;
      match res with
      | FetchResponse code content =>
          if success code then ret true
          else
            exec emit (EvWarn (WarnResponse code content));
            exec emit (EvSleep (500 * i));
            postAttempts env url options n' (i + 1)
      | FetchError e =>
          exec emit (EvWarn (WarnError i e));
          exec emit (EvSleep (500 * i));
          postAttempts env url options n' (i + 1)
      end
  end.

Definition attempts : nat := 3.

(** The [options] of [postToIngress]. *)
Definition ingressOptions (apiKey : string) (obj : Payload) : FetchOptions :=
  {| method := "post"; contentType := "application/json"; payload := obj;
     x_api_key := apiKey; muteHttpExceptions := true |}.

Definition postToIngress (env : Env) (url apiKey : string) (obj : Payload)
  : M bool :=
  let options := ingressOptions apiKey obj in
  postAttempts env url options attempts 1.

(** The callback of [forEach] in [pollFolder]; [seen] and [count] are the
    variables of [pollFolder] it updates. *)
Definition eachFile (env : Env) (cfg : Config) (f : DriveFile)
    (st : JsSet * Z) : M (JsSet * Z) :=
  let '(seen, count) := st in
  if set_has seen (id f) then ret (seen, count)
  else
    let payload :=
      {| fileId := id f; p_name := name f; p_mimeType := mimeType f;
         p_createdTime := createdTime f; folderId := cfg_folderId cfg |} in
    do ok <- postToIngress env (endpoint cfg) (apiKey cfg) payload;
    if ok then ret (set_add seen (id f), count + 1)
    else ret (seen, count).

Fixpoint forEach {A S : Type} (body : A -> S -> M S) (l : list A) (st : S)
  : M S :=
  match l with
  | [] => ret st
  | x :: l' => do st' <- body x st; forEach body l' st'
  end.

Definition listArgs (query : string) (pageToken : option string) : ListArgs :=
  {| q := query; orderBy := "createdTime"; pageToken := pageToken;
     includeItemsFromAllDrives := true; supportsAllDrives := true;
     fields := "files(id,name,mimeType,createdTime),nextPageToken" |}.

(** The [do ... while (pageToken)] loop: one iteration per page the Drive
    returns, until a response without a page token (or with an empty one,
    which is falsy too). *)
Fixpoint pollPages (env : Env) (cfg : Config) (query : string)
    (l : Listing) (pageToken : option string) (st : JsSet * Z)
  : M (JsSet * Z) :=
  exec emit (EvList (listArgs query pageToken));
  match l with
  | ListThrow msg => throw (DriveError msg)
  | ListEnd files => forEach (eachFile env cfg) (default [] files) st
  | ListMore files next rest =>
      do st' <- forEach (eachFile env cfg) (default [] files) st;
      if decide (next = "") then ret st'
      else pollPages env cfg query rest (Some next) st'
  end.

Definition scanQuery (folderId sinceIso : string) : string :=
  "'" ++ folderId ++ "' in parents" ++ " and " ++ "trashed = false"
    ++ " and " ++ "createdTime >= '" ++ sinceIso ++ "'".

(** Entry point of the time-driven trigger. *)
Definition pollFolder (env : Env) : M unit :=
  do cfg <- loadConfig;
  do sinceIso <- computeSinceIso env (lookbackMinutes cfg);
  do seen <- loadSeenIds;
  let query := scanQuery (cfg_folderId cfg) sinceIso in
  do '(seen', count) <-
    pollPages env cfg query (drive env (listArgs query None)) None (seen, 0);
  exec persistSeenIds seen';
  emit (EvLog count sinceIso).

(** *** Invocations *)

(** An invocation starts from the stored properties, with nothing done
    yet. *)
Definition start (P : Props) : World :=
  {| props := P; fetches := O; trace := [] |}.

Definition invoke (env : Env) (P : Props) : Completion unit * World :=
  pollFolder env (start P).

(** Successive invocations, each one starting from the properties the one
    before left. *)
Fixpoint invocations (P : Props) (envs : list Env)
  : list (Completion unit * World) :=
  match envs with
  | [] => []
  | env :: envs' =>
      let r := invoke env P in
      r :: invocations (props (snd r)) envs'
  end.

(** The properties left by a sequence of invocations. *)
Definition props_after (P : Props) (envs : list Env) : Props :=
  fold_left (fun P env => props (snd (invoke env P))) envs P.

Definition completes (r : Completion unit * World) : Prop :=
  fst r = Normal tt.

(** *** Reading a trace *)

(** The file ids whose hand-off was confirmed: the fetches answered with a
    2xx code, in order. *)
Definition confirmed (ev : Event) : option string :=
  match ev with
  | EvFetch _ options (FetchResponse code _) =>
      if success code then Some (fileId (payload options)) else None
  | _ => None
  end.

Definition forwarded (tr : list Event) : list string :=
  omap confirmed tr.

(** The outcomes of the fetches of a trace, in order. *)
Definition fetch_result (ev : Event) : option FetchResult :=
  match ev with
  | EvFetch _ _ res => Some res
  | _ => None
  end.

Definition fetch_results (tr : list Event) : list FetchResult :=
  omap fetch_result tr.

(** An attempt is answered when the response code is in [200, 300). *)
Definition answered (res : FetchResult) : bool :=
  match res with
  | FetchResponse code _ => success code
  | FetchError _ => false
  end.

(** The world after [k] more fetches and the events [evs]. *)
Definition extend (w : World) (k : nat) (evs : list Event) : World :=
  {| props := props w; fetches := (fetches w + k)%nat;
     trace := trace w ++ evs |}.

(** What the loop of [postToIngress] does when entered with [n] iterations
    left and counter [i]: the result and the events, by the outcome of each
    fetch. *)
Inductive attempt_log (url : string) (options : FetchOptions)
  : nat -> Z -> bool -> list Event -> Prop :=
  | log_exhausted i :
      attempt_log url options O i false []
  | log_answered n i code content :
      success code = true ->
      attempt_log url options (S n) i true
        [EvFetch url options (FetchResponse code content)]
  | log_refused n i code content b evs :
      success code = false ->
      attempt_log url options n (i + 1) b evs ->
      attempt_log url options (S n) i b
        (EvFetch url options (FetchResponse code content)
           :: EvWarn (WarnResponse code content) :: EvSleep (500 * i) :: evs)
  | log_failed n i e b evs :
      attempt_log url options n (i + 1) b evs ->
      attempt_log url options (S n) i b
        (EvFetch url options (FetchError e)
           :: EvWarn (WarnError i e) :: EvSleep (500 * i) :: evs).

(** A schedule of delays is geometric (grows exponentially) when the ratio
    of consecutive delays is constant. *)
Definition geometric (delays : list Z) : Prop :=
  forall (k : nat) (a b c : Z),
    delays !! k = Some a -> delays !! S k = Some b ->
    delays !! S (S k) = Some c -> b * b = a * c.

(** The confirmed file ids of successive invocations, in order. *)
Definition forwarded_by (rs : list (Completion unit * World)) : list string :=
  concat (map (fun r => forwarded (trace (snd r))) rs).

(** The ids that a sequence of invocations puts into the stored cache: the
    ids confirmed in the invocations that run to completion, an invocation
    that throws storing nothing. *)
Definition persisted_by (rs : list (Completion unit * World)) : list string :=
  concat (map (fun r => match fst r with
                        | Normal _ => forwarded (trace (snd r))
                        | Throw _ => []
                        end) rs).

(** The file ids a fetch was attempted for. *)
Definition attempted (ev : Event) : option string :=
  match ev with
  | EvFetch _ options _ => Some (fileId (payload options))
  | _ => None
  end.

Definition slept (ev : Event) : option Z :=
  match ev with
  | EvSleep ms => Some ms
  | _ => None
  end.

Definition listed_args (ev : Event) : option ListArgs :=
  match ev with
  | EvList a => Some a
  | _ => None
  end.

(** The files of the pages the script reads from a listing. *)
Fixpoint listed (l : Listing) : list DriveFile :=
  match l with
  | ListThrow _ => []
  | ListEnd files => default [] files
  | ListMore files next rest =>
      default [] files ++ (if decide (next = "") then [] else listed rest)
  end.

(** The lower bound of the scan window: the date [since] of
    [computeSinceIso]. *)
Definition since (env : Env) (lookbackMinutes : JsNumber) : JsDate.t :=
  JsDate.of_number
    (num_sub (Some (now env))
             (num_mul (num_mul lookbackMinutes (Some 60)) (Some 1000))).

(** The configuration an invocation would load from the properties, if it
    loads one. *)
Definition config (P : Props) : option Config :=
  match loadConfig (start P) with
  | (Normal cfg, _) => Some cfg
  | (Throw _, _) => None
  end.

(** The seen-id cache an invocation would load from the properties. *)
Definition cache (P : Props) : option JsSet :=
  set_of_array <$> (slice_last 500 <$>
    JSON.parse (or_default (P !! "SEEN_IDS_JSON") "[]")).

(** *** Worlds and events of a scan *)

(** The world after the events [evs], the fetches among them counted. *)
Definition advance (w : World) (evs : list Event) : World :=
  extend w (length (fetch_results evs)) evs.

(** What the events of a visit are to the set the visit started with: no
    call of the Drive among them, fetches only for ids that are not in the
    set, and the confirmed ids extend the set without duplicates. *)
Definition visit (seen : list string) (evs : list Event) : Prop :=
  omap listed_args evs = []
  ∧ (∀ x, x ∈ omap attempted evs → x ∉ seen)
  ∧ (NoDup seen → NoDup (seen ++ forwarded evs)).

(** [visit] without the condition on the calls of the Drive. *)
Definition fresh (seen : list string) (evs : list Event) : Prop :=
  (∀ x, x ∈ omap attempted evs → x ∉ seen)
  ∧ (NoDup seen → NoDup (seen ++ forwarded evs)).

(** The world after the watermark was written. *)
Definition marked (env : Env) (P : Props) : World :=
  {| props := <["LAST_RUN_ISO" := JsDate.format (now env)]> P;
     fetches := 0;
     trace := [EvSetProperty "LAST_RUN_ISO" (JsDate.format (now env))] |}.

(** The world after the cache was persisted and the count logged. *)
Definition closed (w : World) (seen : JsSet) (count : Z) (sinceIso : string)
  : World :=
  {| props := <["SEEN_IDS_JSON" := JSON.stringify (slice_last 500 seen)]>
                (props w);
     fetches := fetches w;
     trace := trace w
              ++ [EvSetProperty "SEEN_IDS_JSON"
                    (JSON.stringify (slice_last 500 seen));
                  EvLog count sinceIso] |}.

(** *** The events of a scan, file by file *)

(** The [payload] object that [pollFolder] builds for a file. *)
Definition payloadOf (cfg : Config) (f : DriveFile) : Payload :=
  {| fileId := id f; p_name := name f; p_mimeType := mimeType f;
     p_createdTime := createdTime f; folderId := cfg_folderId cfg |}.

(** The events of [forEach] over the files of a page, started with the set
    [seen]: nothing for a file whose id is in the set, the events of
    [postToIngress] for the others, the id joining the set when the result
    is [true]. *)
Inductive visit_log (cfg : Config)
  : JsSet -> list DriveFile -> list Event -> Prop :=
  | visit_done seen :
      visit_log cfg seen [] []
  | visit_skip seen f files evs :
      id f ∈ seen ->
      visit_log cfg seen files evs ->
      visit_log cfg seen (f :: files) evs
  | visit_post seen f files b evs1 evs2 :
      id f ∉ seen ->
      attempt_log (endpoint cfg) (ingressOptions (apiKey cfg) (payloadOf cfg f))
        3 1 b evs1 ->
      visit_log cfg (if b then (seen ++ [id f])%list else seen) files evs2 ->
      visit_log cfg seen (f :: files) (evs1 ++ evs2)%list.

(** The events of the paging loop entered with the page token [tok] on the
    listing [l]. *)
Inductive page_log (cfg : Config) (query : string)
  : JsSet -> Listing -> option string -> list Event -> Prop :=
  | page_throw seen msg tok :
      page_log cfg query seen (ListThrow msg) tok
        [EvList (listArgs query tok)]
  | page_end seen files tok evs :
      visit_log cfg seen (default [] files) evs ->
      page_log cfg query seen (ListEnd files) tok
        (EvList (listArgs query tok) :: evs)
  | page_last seen files rest tok evs :
      visit_log cfg seen (default [] files) evs ->
      page_log cfg query seen (ListMore files "" rest) tok
        (EvList (listArgs query tok) :: evs)
  | page_more seen files next rest tok evs1 evs2 :
      next <> "" ->
      visit_log cfg seen (default [] files) evs1 ->
      page_log cfg query (seen ++ forwarded evs1)%list rest (Some next) evs2 ->
      page_log cfg query seen (ListMore files next rest) tok
        (EvList (listArgs query tok) :: evs1 ++ evs2)%list.

(** The page tokens the loop follows in a listing. *)
Fixpoint tokens (l : Listing) : list string :=
  match l with
  | ListThrow _ => []
  | ListEnd _ => []
  | ListMore _ next rest =>
      if decide (next = "") then [] else next :: tokens rest
  end.

(** The message of the exception of the Drive that the loop runs into, if it
    does. *)
Fixpoint failure (l : Listing) : option string :=
  match l with
  | ListThrow msg => Some msg
  | ListEnd _ => None
  | ListMore _ next rest =>
      if decide (next = "") then None else failure rest
  end.

(** The listing that the Drive gives to an invocation, when the invocation
    gets as far as calling the Drive: with a configuration, a valid bound
    and a readable cache. *)
Definition listing (env : Env) (P : Props) : option Listing :=
  match config P with
  | Some cfg =>
      match JsDate.toISOString (since env (lookbackMinutes cfg)) with
      | Some sinceIso =>
          match cache P with
          | Some _ =>
              Some (drive env
                      (listArgs (scanQuery (cfg_folderId cfg) sinceIso) None))
          | None => None
          end
      | None => None
      end
  | None => None
  end.

(** The files an invocation reads from the Drive. *)
Definition scanned (env : Env) (P : Props) : list DriveFile :=
  match listing env P with
  | Some l => listed l
  | None => []
  end.

(** A fetch for the file id [x] that was not answered with a 2xx code. *)
Definition refused_for (x : string) (ev : Event) : bool :=
  match ev with
  | EvFetch _ options res =>
      bool_decide (fileId (payload options) = x) && negb (answered res)
  | _ => false
  end.

(** The number of such fetches in a trace. *)
Definition refusals (x : string) (tr : list Event) : nat :=
  length (filter (fun ev => Is_true (refused_for x ev)) tr).

(** The log lines of a trace. *)
Definition logged (ev : Event) : option (Z * string) :=
  match ev with
  | EvLog count sinceIso => Some (count, sinceIso)
  | _ => None
  end.

(** The warnings of a trace. *)
Definition warned (ev : Event) : option Warning :=
  match ev with
  | EvWarn x => Some x
  | _ => None
  end.

(** The properties a trace writes, in order. *)
Definition written (ev : Event) : option (string * string) :=
  match ev with
  | EvSetProperty key value => Some (key, value)
  | _ => None
  end.

End Poller.

(* ===================================================================== *)
(** ** Lists                                                              *)
(* ===================================================================== *)

(** The first occurrences of the elements of a list, in order. *)
Definition add_new {A : Type} `{EqDecision A} (s : list A) (x : A) : list A :=
  if bool_decide (x ∈ s) then s else s ++ [x].

Definition distinct {A : Type} `{EqDecision A} (l : list A) : list A :=
  fold_left add_new l [].

Definition sum (l : list Z) : Z := foldr Z.add 0 l.

(** Equal elements of a list are more than [n] positions apart. *)
Definition spaced {A : Type} (n : nat) (l : list A) : Prop :=
  ∀ (i j : nat) x,
    (i < j)%nat → l !! i = Some x → l !! j = Some x → (i + n < j)%nat.

(** A list of pairs in which the first component determines the second. *)
Definition functional {K V : Type} (l : list (K * V)) : Prop :=
  forall k v v', (k, v) ∈ l -> (k, v') ∈ l -> v = v'.

(* ===================================================================== *)
(** ** The monthly ledger                                                 *)
(* ===================================================================== *)

Module Sheets.

(** Amounts are integers of the currency's minor unit (sen), the precision
    the design rounds totals to. *)
Abbreviation Amount := Z.

Inductive Status : Type := OK | NEEDS_REVIEW.

#[export] Instance Status_eq_dec : EqDecision Status.
Proof. solve_decision. Defined.

(** The text of the [status] column and of the [status] field of the
    messages (README, "Message Contracts"). *)
Definition status_text (s : Status) : string :=
  match s with
  | OK => "OK"
  | NEEDS_REVIEW => "NEEDS REVIEW"
  end.

(** One row of a month tab under the header of the README:
    date, vendor, item, qty, unit_price, line_total, subtotal, tax, total,
    currency, payment_method, receipt_id, image_hash, status, notes,
    file_link.  A blank cell of a text column is the empty string, a blank
    cell of an item column is [None]. *)
Record Row : Type := {
  date : string;
  vendor : string;
  item : string;
  qty : option Z;
  unit_price : option Amount;
  line_total : option Amount;
  subtotal : Amount;
  tax : Amount;
  total : Amount;
  currency : string;
  payment_method : string;
  receipt_id : string;
  image_hash : string;
  status : string;
  notes : string;
  file_link : string
}.

(** *** The footer formula (README, "Sheets Format")

    [=IFERROR(SUM(QUERY(UNIQUE(FILTER({M2:M, I2:I}, N2:N<>"NEEDS REVIEW")),
       "select sum(Col2) where Col1 <> ''", 0)), 0)]
    with [I = total], [M = image_hash], [N = status], over the data rows of
    the tab. *)

Definition upper_char (c : ascii) : ascii :=
  let n := N_of_ascii c in
  if ((97 <=? n) && (n <=? 122))%N then ascii_of_N (n - 32) else c.

Fixpoint upper (s : string) : string :=
  match s with
  | "" => ""
  | String c s' => String (upper_char c) (upper s')
  end.

(** [a <> b] of the formula language on text: the comparison ignores
    case. *)
Definition text_differs (a b : string) : bool :=
  bool_decide (upper a ≠ upper b).

(** [FILTER({M2:M, I2:I}, N2:N<>"NEEDS REVIEW")]: the [image_hash] and
    [total] cells of the rows whose status is not NEEDS REVIEW. *)
Definition FILTER (rows : list Row) : list (string * Amount) :=
  map (fun r => (image_hash r, total r))
      (filter (fun r => Is_true (text_differs (status r) "NEEDS REVIEW")) rows).

(** [UNIQUE]: the distinct rows of the range, first occurrences kept. *)
Definition UNIQUE (range : list (string * Amount)) : list (string * Amount) :=
  distinct range.

(** [QUERY(range, "select sum(Col2) where Col1 <> ''", 0)]; the sum over no
    row at all is blank, which [SUM] reads as 0. *)
Definition QUERY_sum (range : list (string * Amount)) : Amount :=
  sum (map snd (filter (fun p => fst p ≠ "") range)).

(** The value of the [MONTH TOTAL] cell, [rows] being the data rows of the
    tab.  The other rows of the open ranges (blank rows, the footer row
    itself) have no [image_hash] and are dropped by the condition of the
    query, as are the data rows without one.  [FILTER] over no matching row
    is an error, which [IFERROR] turns into 0: the value of the sum over no
    row. *)
Definition month_total (rows : list Row) : Amount :=
  QUERY_sum (UNIQUE (FILTER rows)).

(** *** What the design says the aggregate is

    "the sum of [total] over the distinct content identities currently
    present with status OK in that ledger". *)

Definition ok_rows (rows : list Row) : list Row :=
  filter (fun r => status r = "OK") rows.

(** The distinct content identities borne by rows with status OK; a blank
    [image_hash] cell bears none. *)
Definition ok_identities (rows : list Row) : list string :=
  distinct (filter (fun h => h ≠ "") (map image_hash (ok_rows rows))).

(** The [total] of a content identity: the one of the first OK row that
    bears it. *)
Definition total_of (rows : list Row) (h : string) : Amount :=
  match filter (fun r => image_hash r = h) (ok_rows rows) with
  | r :: _ => total r
  | [] => 0
  end.

Definition ok_total (rows : list Row) : Amount :=
  sum (map (total_of rows) (ok_identities rows)).

(** *** Validation outcomes and the writer *)

Record Item : Type := {
  description : string;
  quantity : Z;
  i_unit_price : Amount;
  i_line_total : Amount
}.

(** A normalized receipt (README, "JSON Schema"); a nullable field that is
    null is the empty string. *)
Record Norm : Type := {
  n_vendor : string;
  purchase_date : string;
  n_currency : string;
  n_subtotal : Amount;
  n_tax : Amount;
  n_total : Amount;
  n_payment_method : string;
  items : list Item;
  n_receipt_id : string;
  source_image_hash : string
}.

(** The message of the [valid] and [review] channels.  Its rows are not a
    field: they are rendered from the other fields, see [rendered_rows]. *)
Record Outcome : Type := {
  o_fileId : string;
  month_key : string;
  norm : Norm;
  o_notes : list string;
  o_status : Status
}.

Definition shared_row (o : Outcome) (it : string)
    (q : option Z) (up lt : option Amount) : Row :=
  let n := norm o in
  {| date := purchase_date n; vendor := n_vendor n; item := it; qty := q;
     unit_price := up; line_total := lt; subtotal := n_subtotal n;
     tax := n_tax n; total := n_total n; currency := n_currency n;
     payment_method := n_payment_method n; receipt_id := n_receipt_id n;
     image_hash := source_image_hash n; status := status_text (o_status o);
     notes := String.concat "; " (o_notes o); file_link := o_fileId o |}.

(** Modelled from the spec: the row rendering of the Validator/Reconciler,
    whose code is not part of the sources (design, 4.5 step 5): "one ledger
    row per line item (repeating shared header fields), each row carrying
    the shared content identity".  A record without line items renders one
    row with blank item cells, rows being rendered even when structuring
    found nothing (design, 8). *)
Definition rendered_rows (o : Outcome) : list Row :=
  match items (norm o) with
  | [] => [shared_row o "" None None None]
  | its =>
      map (fun it => shared_row o (description it) (Some (quantity it))
                       (Some (i_unit_price it)) (Some (i_line_total it))) its
  end.

(** The header row of a month tab (README, "Sheets Format"). *)
Definition header : list string :=
  ["date"; "vendor"; "item"; "qty"; "unit_price"; "line_total"; "subtotal";
   "tax"; "total"; "currency"; "payment_method"; "receipt_id"; "image_hash";
   "status"; "notes"; "file_link"].

(** A month tab: its header row, its data rows and the value of its
    [MONTH TOTAL] row, [None] while the row does not exist. *)
Record Ledger : Type := {
  header_row : list string;
  rows : list Row;
  aggregate : option Amount
}.

Abbreviation Workbook := (gmap string Ledger).

Definition bears (h : string) (r : Row) : Prop := image_hash r = h.

#[export] Instance bears_dec h r : Decision (bears h r).
Proof. unfold bears. apply _. Defined.

(** Modelled from the spec: the append of the Sheets Writer (design, 4.6):
    the rows are appended and the aggregate row is recomputed from all the
    rows, "overwrite (not increment) the existing aggregate row, or create
    it if absent". *)
Definition append (l : Ledger) (new : list Row) : Ledger :=
  let rows' := (rows l ++ new)%list in
  {| header_row := header_row l; rows := rows';
     aggregate := Some (month_total rows') |}.

(** A month tab as it is created: the header and nothing else. *)
Definition new_ledger : Ledger :=
  {| header_row := header; rows := []; aggregate := None |}.

(** Modelled from the spec: the Sheets Writer, whose code is not part of the
    sources (design, 4.6): "resolve the target monthly ledger (create with
    header if absent), and append only if no row bearing this content
    identity already exists in that ledger"; "after every successful append,
    recompute the aggregate row [...]; overwrite (not increment) the
    existing aggregate row, or create it if absent".  The recomputation is
    the footer formula of the README. *)
Definition write (wb : Workbook) (o : Outcome) : Workbook :=
  let l := default new_ledger (wb !! month_key o) in
  if bool_decide (Exists (bears (source_image_hash (norm o))) (rows l))
  then <[month_key o := l]> wb
  else <[month_key o := append l (rendered_rows o)]> wb.

(** The workbook after a sequence of deliveries to the writer. *)
Definition deliver (wb : Workbook) (os : list Outcome) : Workbook :=
  fold_left write os wb.

(** The number of rows of a month tab that bear a content identity. *)
Definition row_count (wb : Workbook) (month h : string) : nat :=
  length (filter (bears h) (rows (default new_ledger (wb !! month)))).

(** *** The invariant of the writer *)

(** The rows a writer leaves in a month tab: the status is one of the two
    texts, and the rows that bear the same content identity carry the same
    total. *)
Definition well_kept (rs : list Row) : Prop :=
  (∀ r, r ∈ rs → status r = "OK"%string ∨ status r = "NEEDS REVIEW"%string)
  ∧ (∀ r r', r ∈ rs → r' ∈ rs → image_hash r = image_hash r' →
             total r = total r').

(** The invariant of a workbook: every month tab is well kept and its
    aggregate row holds the value of the footer formula. *)
Definition kept (wb : Workbook) : Prop :=
  ∀ month l, wb !! month = Some l →
    well_kept (rows l) ∧ aggregate l = Some (month_total (rows l)).

End Sheets.

(* ===================================================================== *)
(** ** The reconciliation of the Validator/Reconciler                     *)
(* ===================================================================== *)

Module Validator.
Import Sheets.

(** The dedupe key (design, 3): the content identity when present, otherwise
    a composite of vendor, purchase date and total. *)
Inductive Key : Type :=
  | ByIdentity (image_hash : string)
  | ByFields (vendor date : string) (total : Amount).

#[export] Instance Key_eq_dec : EqDecision Key.
Proof. solve_decision. Defined.







End Validator.

(* ===================================================================== *)
(** ** Sample data                                                        *)
(* ===================================================================== *)

Module Sample.
Import Poller.

Definition configured : Props :=
  <["FOLDER_ID" := "folder1"]>
    (<["INGRESS_URL" := "https://ingress.example/"]>
       (<["API_KEY" := "k"]> (<["LOOKBACK_MINUTES" := "5"]> ∅))).

Definition file (i : string) : DriveFile :=
  {| id := i; name := "scan.pdf"; mimeType := "application/pdf";
     createdTime := "2025-09-12T03:00:00.000Z" |}.

Definition receipt : Payload :=
  {| fileId := "f1"; p_name := "scan.pdf"; p_mimeType := "application/pdf";
     p_createdTime := "2025-09-12T03:00:00.000Z"; folderId := "folder1" |}.

(** 2025-09-12T03:00:00Z, in milliseconds. *)
Definition T : Z := 1757646000000.

(** The Drive shows [files] on one page, and every fetch is answered by
    [answer]. *)
Definition env_at (t : Z) (files : list DriveFile)
    (answer : nat -> FetchOptions -> FetchResult) : Env :=
  {| now := t; drive := fun _ => ListEnd (Some files);
     fetch := fun k _ options => answer k options |}.

Definition accept : nat -> FetchOptions -> FetchResult :=
  fun _ _ => FetchResponse 200 "ok".

Definition refuse : nat -> FetchOptions -> FetchResult :=
  fun _ _ => FetchResponse 503 "unavailable".

(** A stored array of ids with a repeated id. *)
Definition stored_ids : string := JSON.stringify ["a"; "b"; "a"].

(** A Drive that holds [files] in the folder and answers a query with those
    created at or after the bound of the query, on one page.  The bound is
    the ISO text between the last two quotes of the query; ISO texts of the
    same length compare as the times do. *)
Definition bound_of (query : string) : string :=
  substring (String.length query - 25) 24 query.

Definition folder (files : list DriveFile) (a : ListArgs) : Listing :=
  ListEnd (Some (filter (fun f => String.le (bound_of (q a)) (createdTime f))
                        files)).

Definition scan_at (t : Z) (files : list DriveFile)
    (answer : nat -> FetchOptions -> FetchResult) : Env :=
  {| now := t; drive := folder files;
     fetch := fun k _ options => answer k options |}.

(** Six scans one minute apart with a lookback of five minutes: a file
    created at [T] is in the window of each of them. *)
Definition six_scans : list Env :=
  map (fun k => scan_at (T + k * 60000) [file "f1"] accept)
      [0; 1; 2; 3; 4; 5].

(** A scan in which the Drive shows the file on a first page and fails on
    the second. *)
Definition cut_short : Env :=
  {| now := T;
     drive := fun _ =>
       ListMore (Some [file "f1"]) "page2" (ListThrow "Drive unavailable");
     fetch := fun k _ options => accept k options |}.

(** The six scans, with a scan that the Drive cuts short after the
    first. *)
Definition interrupted_scans : list Env :=
  (take 1 six_scans ++ cut_short :: drop 1 six_scans)%list.

(** The receipt of the design's scenario: content identity [h1], total
    23.00, two line items. *)
Definition receipt_h1 : Sheets.Outcome :=
  {| Sheets.o_fileId := "f1"; Sheets.month_key := "2025-09";
     Sheets.norm :=
       {| Sheets.n_vendor := "7-Eleven"; Sheets.purchase_date := "2025-09-10";
          Sheets.n_currency := "MYR"; Sheets.n_subtotal := 2180;
          Sheets.n_tax := 120; Sheets.n_total := 2300;
          Sheets.n_payment_method := "Card";
          Sheets.items :=
            [ {| Sheets.description := "Milk 1L"; Sheets.quantity := 1;
                 Sheets.i_unit_price := 650; Sheets.i_line_total := 650 |};
              {| Sheets.description := "Rice 5kg"; Sheets.quantity := 1;
                 Sheets.i_unit_price := 1530; Sheets.i_line_total := 1530 |} ];
          Sheets.n_receipt_id := ""; Sheets.source_image_hash := "sha256:h1" |};
     Sheets.o_notes := []; Sheets.o_status := Sheets.OK |}.

(** A receipt of the same month that needs review. *)
Definition receipt_h2 : Sheets.Outcome :=
  {| Sheets.o_fileId := "f2"; Sheets.month_key := "2025-09";
     Sheets.norm :=
       {| Sheets.n_vendor := ""; Sheets.purchase_date := "2025-09-11";
          Sheets.n_currency := "MYR"; Sheets.n_subtotal := 900;
          Sheets.n_tax := 99; Sheets.n_total := 999;
          Sheets.n_payment_method := ""; Sheets.items := [];
          Sheets.n_receipt_id := ""; Sheets.source_image_hash := "sha256:h2" |};
     Sheets.o_notes := ["vendor missing"]; Sheets.o_status := Sheets.NEEDS_REVIEW |}.





(** Ids with the characters that JSON escapes: a quote, a backslash, a line
    feed and a control character. *)
Definition awkward_ids : list string :=
  ["plain"; String JSON.dquote "q"; String JSON.backslash "b";
   String "010"%char "n"; String "001"%char "c"].

(** A Drive that shows two files on a first page and one more, with the
    first again, on a second. *)
Definition two_pages : Env :=
  {| now := T;
     drive := fun _ =>
       ListMore (Some [file "f1"; file "f2"]) "page2"
         (ListEnd (Some [file "f1"; file "f3"]));
     fetch := fun _ _ options =>
       if decide (fileId (payload options) = "f2")
       then FetchResponse 500 "no" else FetchResponse 200 "ok" |}.

End Sample.
(* ===================================================================== *)
(** ** Facts about the JSON text                                          *)
(* ===================================================================== *)

Section JSONFacts.
Import JSON.

Lemma string_app_cons (c : ascii) (s t : string) :
  String c s ++ t = String c (s ++ t).
Proof. reflexivity. Qed.

Lemma string_app_assoc (s t u : string) : (s ++ t) ++ u = s ++ (t ++ u).
Proof.
  induction s as [|c s IH]; [reflexivity|].
  rewrite !string_app_cons. by rewrite IH.
Qed.

(** The automaton reads an escaped character back as the character. *)
Lemma run_escape_char (c : ascii) done cur (rest : string) :
  run (PInStr done cur) (escape_char c ++ rest)
  = run (PInStr done (c :: cur)) rest.
Proof. destruct c as [[] [] [] [] [] [] [] []]; reflexivity. Qed.

Lemma run_escape (s : string) done cur (rest : string) :
  run (PInStr done cur) (escape s ++ rest)
  = run (PInStr done (rev (list_ascii_of_string s) ++ cur)) rest.
Proof.
  revert cur. induction s as [|c s IH]; intros cur; [reflexivity|].
  cbn [escape list_ascii_of_string rev].
  rewrite string_app_assoc, run_escape_char, IH.
  by rewrite <- app_assoc.
Qed.

Lemma finish_rev (s : string) : finish (rev (list_ascii_of_string s)) = s.
Proof.
  unfold finish. rewrite rev_involutive.
  apply string_of_list_ascii_of_string.
Qed.

Lemma run_quote (s : string) done (rest : string) :
  run (PInStr done []) (escape s ++ String dquote rest)
  = run (PAfterVal (s :: done)) rest.
Proof.
  rewrite run_escape, app_nil_r. cbn [run step].
  change (N_of_ascii dquote) with 34%N. cbn. by rewrite finish_rev.
Qed.

Lemma run_stringify_tail (l : list string) done :
  run (PAfterVal done) (stringify_tail l) = Some (PEnd (rev l ++ done)).
Proof.
  revert done. induction l as [|x l IH]; intros done; [reflexivity|].
  cbn [stringify_tail]. unfold quote.
  change (run (PAfterVal done)
            (String "," (String dquote (escape x ++ String dquote "") ++ stringify_tail l)))
    with (run (PInStr done []) ((escape x ++ String dquote "") ++ stringify_tail l)).
  rewrite string_app_assoc, string_app_cons. change ("" ++ stringify_tail l) with (stringify_tail l).
  rewrite run_quote, IH. cbn [rev]. by rewrite <- app_assoc.
Qed.

(** Reading back what [JSON.stringify] wrote gives the array. *)
Lemma parse_stringify (l : list string) : parse (stringify l) = Some l.
Proof.
  unfold parse. destruct l as [|x l]; [reflexivity|].
  cbn [stringify]. unfold quote.
  change (run PStart
            (String "[" (String dquote (escape x ++ String dquote "") ++ stringify_tail l)))
    with (run (PInStr [] []) ((escape x ++ String dquote "") ++ stringify_tail l)).
  rewrite string_app_assoc, string_app_cons. change ("" ++ stringify_tail l) with (stringify_tail l).
  rewrite run_quote, run_stringify_tail.
  by rewrite rev_app_distr, rev_involutive.
Qed.

End JSONFacts.

(* ===================================================================== *)
(** ** ISO time stamps                                                    *)
(* ===================================================================== *)

Example iso_epoch :
  JsDate.toISOString (Some 0) = Some "1970-01-01T00:00:00.000Z".
Proof. reflexivity. Qed.

Example iso_before_epoch :
  JsDate.toISOString (Some (-1)) = Some "1969-12-31T23:59:59.999Z".
Proof. reflexivity. Qed.

Example iso_leap_day :
  JsDate.toISOString (Some 951782400000) = Some "2000-02-29T00:00:00.000Z".
Proof. reflexivity. Qed.

Example iso_sample : JsDate.format Sample.T = "2025-09-12T03:00:00.000Z".
Proof. reflexivity. Qed.

Example iso_last_time_value :
  JsDate.toISOString (JsDate.of_number (Some JsDate.max_time))
  = Some "+275760-09-13T00:00:00.000Z"
  ∧ JsDate.toISOString (JsDate.of_number (Some (JsDate.max_time + 1))) = None.
Proof. split; reflexivity. Qed.

(* ===================================================================== *)
(** ** Facts about lists: distinct elements and the last elements         *)
(* ===================================================================== *)

Local Open Scope list_scope.

Section ListFacts.
Import Poller.
Context {A : Type} `{EqDecision A}.
Implicit Types (l g : list A) (x : A).

Lemma distinct_snoc l x : distinct (l ++ [x]) = add_new (distinct l) x.
Proof. unfold distinct. by rewrite fold_left_app. Qed.

Lemma elem_of_add_new l x y : y ∈ add_new l x ↔ y ∈ l ∨ y = x.
Proof.
  unfold add_new. case_bool_decide as Hx.
  - split; [by left|]. intros [?| ->]; done.
  - rewrite elem_of_app, list_elem_of_singleton. done.
Qed.

Lemma elem_of_distinct l y : y ∈ distinct l ↔ y ∈ l.
Proof.
  induction l as [|x l IH] using rev_ind; [done|].
  rewrite distinct_snoc, elem_of_add_new, IH, elem_of_app,
    list_elem_of_singleton. done.
Qed.

Lemma NoDup_add_new l x : NoDup l → NoDup (add_new l x).
Proof.
  intros Hl. unfold add_new. case_bool_decide as Hx; [done|].
  apply NoDup_app. split_and!; [done| |apply NoDup_singleton].
  intros y Hy ->%list_elem_of_singleton. done.
Qed.

Lemma NoDup_distinct l : NoDup (distinct l).
Proof.
  induction l as [|x l IH] using rev_ind; [constructor|].
  rewrite distinct_snoc. by apply NoDup_add_new.
Qed.

Lemma distinct_NoDup l : NoDup l → distinct l = l.
Proof.
  induction l as [|x l IH] using rev_ind; [done|].
  intros [Hl [Hx _]]%NoDup_app. rewrite distinct_snoc, IH by done.
  unfold add_new. case_bool_decide as Hin; [|done].
  exfalso. apply (Hx x); [done|]. by apply list_elem_of_singleton.
Qed.

Lemma length_add_new l x : (length (add_new l x) ≤ S (length l))%nat.
Proof.
  unfold add_new. case_bool_decide; [lia|].
  rewrite length_app. simpl. lia.
Qed.

Lemma length_distinct l : (length (distinct l) ≤ length l)%nat.
Proof.
  induction l as [|x l IH] using rev_ind; [done|].
  rewrite distinct_snoc, length_app. simpl.
  pose proof (length_add_new (distinct l) x). lia.
Qed.

(** Filtering commutes with taking the distinct elements. *)
Lemma filter_distinct (P : A → Prop) `{∀ x, Decision (P x)} l :
  filter P (distinct l) = distinct (filter P l).
Proof.
  induction l as [|x l IH] using rev_ind; [done|].
  rewrite distinct_snoc, filter_app. unfold add_new at 1.
  case_bool_decide as Hx.
  - rewrite IH. destruct (decide (P x)) as [HP|HP].
    + rewrite filter_cons_True, filter_nil by done.
      rewrite distinct_snoc. unfold add_new.
      rewrite bool_decide_eq_true_2; [done|].
      rewrite <- IH. apply list_elem_of_filter. done.
    + rewrite filter_cons_False, filter_nil by done. by rewrite app_nil_r.
  - rewrite filter_app, IH. destruct (decide (P x)) as [HP|HP].
    + rewrite filter_cons_True, filter_nil by done.
      rewrite distinct_snoc. unfold add_new.
      rewrite bool_decide_eq_false_2; [done|].
      rewrite <- IH. intros [_ ?]%list_elem_of_filter. done.
    + rewrite filter_cons_False, filter_nil by done. by rewrite !app_nil_r.
Qed.

Lemma length_slice_last (n : nat) l :
  length (slice_last n l) = (n `min` length l)%nat.
Proof. unfold slice_last. rewrite length_drop. lia. Qed.

Lemma slice_last_all (n : nat) l :
  (length l ≤ n)%nat → slice_last n l = l.
Proof.
  intros Hn. unfold slice_last.
  replace (length l - n)%nat with O by lia. done.
Qed.

Lemma slice_last_suffix (n : nat) l : slice_last n l `suffix_of` l.
Proof. apply suffix_drop. Qed.

Lemma NoDup_slice_last (n : nat) l : NoDup l → NoDup (slice_last n l).
Proof.
  intros Hl. unfold slice_last.
  rewrite <- (take_drop (length l - n) l) in Hl.
  by apply NoDup_app in Hl as (_ & _ & ?).
Qed.

(** Evicting before more elements arrive does not change what is left after
    the next eviction. *)
Lemma slice_last_app (n : nat) l g :
  slice_last n (slice_last n l ++ g) = slice_last n (l ++ g).
Proof.
  unfold slice_last. rewrite !length_app, length_drop.
  destruct (decide (length l ≤ n)%nat) as [Hle|Hgt].
  - replace (length l - n)%nat with O by lia.
    by rewrite Nat.sub_0_r.
  - replace (length l - (length l - n) + length g - n)%nat
      with (length g) by lia.
    replace (length l + length g - n)%nat
      with ((length l - n) + length g)%nat by lia.
    rewrite <- drop_drop, (drop_app_le l g) by lia. done.
Qed.

Lemma elem_of_slice_last (n : nat) l (i : nat) x :
  l !! i = Some x → (length l < i + S n)%nat → x ∈ slice_last n l.
Proof.
  intros Hi Hlt. unfold slice_last. apply list_elem_of_lookup.
  exists (i - (length l - n))%nat. rewrite lookup_drop.
  rewrite <- Hi. f_equal. apply lookup_lt_Some in Hi. lia.
Qed.

Lemma spaced_NoDup (n : nat) l : NoDup l → spaced n l.
Proof.
  intros Hnd i j x Hij Hi Hj.
  pose proof (NoDup_lookup l i j x Hnd Hi Hj). lia.
Qed.

(** Elements put behind a list stay spaced when they are new to its last
    [n] elements and to each other. *)
Lemma spaced_app (n : nat) l g :
  spaced n l → NoDup (slice_last n l ++ g) → spaced n (l ++ g).
Proof.
  intros Hl (Hlast & Hdisj & Hg)%NoDup_app i j x Hij Hi Hj.
  destruct (decide (j < length l)%nat) as [Hjl|Hjl].
  { rewrite lookup_app_l in Hi, Hj by lia. by apply (Hl i j x). }
  rewrite lookup_app_r in Hj by lia.
  destruct (decide (i < length l)%nat) as [Hil|Hil].
  - rewrite lookup_app_l in Hi by lia.
    destruct (decide (length l < i + S n)%nat) as [Hnear|]; [|lia].
    exfalso. apply (Hdisj x).
    + by apply (elem_of_slice_last n l i).
    + by apply list_elem_of_lookup_2 in Hj.
  - rewrite lookup_app_r in Hi by lia.
    pose proof (NoDup_lookup g _ _ x Hg Hi Hj). lia.
Qed.

Lemma spaced_drop (n : nat) l g : spaced n (l ++ g) → spaced n g.
Proof.
  intros Hs i j x Hij Hi Hj.
  pose proof (Hs (length l + i)%nat (length l + j)%nat x) as H1.
  rewrite !lookup_app_r in H1 by lia.
  replace (length l + i - length l)%nat with i in H1 by lia.
  replace (length l + j - length l)%nat with j in H1 by lia.
  specialize (H1 ltac:(lia) Hi Hj). lia.
Qed.

(** In a spaced list, an element that fewer than [n] elements follow at its first
    occurrence occurs once. *)
Lemma spaced_once (n : nat) l x :
  spaced n l →
  (∀ l1 l2, l = l1 ++ x :: l2 → x ∉ l1 → (length l2 < n)%nat) →
  ∀ i j : nat, l !! i = Some x → l !! j = Some x → i = j.
Proof.
  intros Hs Hfew.
  assert (∀ i j : nat, (i < j)%nat → l !! i = Some x → l !! j = Some x → False)
    as Hlt.
  { intros i j Hij Hi Hj.
    destruct (list_elem_of_split_l l x) as (l1 & l2 & Hl & Hx).
    { by apply list_elem_of_lookup_2 in Hi. }
    pose proof (Hfew l1 l2 Hl Hx) as Hshort.
    assert (l !! length l1 = Some x) as H0.
    { rewrite Hl. by rewrite list_lookup_middle. }
    assert (length l1 ≤ i)%nat as Hle.
    { destruct (decide (length l1 ≤ i)%nat) as [|Hn]; [done|]. exfalso.
      apply Hx. rewrite Hl in Hi. rewrite lookup_app_l in Hi by lia.
      by apply list_elem_of_lookup_2 in Hi. }
    pose proof (Hs (length l1) j x ltac:(lia) H0 Hj) as Hfar.
    apply lookup_lt_Some in Hj. rewrite Hl, length_app in Hj. cbn in Hj. lia. }
  intros i j Hi Hj.
  destruct (Nat.lt_trichotomy i j) as [Hij|[Hij|Hij]]; [|done|].
  - destruct (Hlt i j Hij Hi Hj).
  - destruct (Hlt j i Hij Hj Hi).
Qed.

End ListFacts.

(* ===================================================================== *)
(** ** Facts about the poller                                             *)
(* ===================================================================== *)

Section PollerFacts.
Import Poller.

Lemma extend_nothing w : extend w 0 [] = w.
Proof.
  destruct w as [P k tr]. unfold extend. cbn.
  by rewrite Nat.add_0_r, app_nil_r.
Qed.

Lemma extend_extend w k1 evs1 k2 evs2 :
  extend (extend w k1 evs1) k2 evs2 = extend w (k1 + k2) (evs1 ++ evs2).
Proof. unfold extend. cbn. by rewrite Nat.add_assoc, app_assoc. Qed.

Lemma emit_extend ev w : emit ev w = (Normal tt, extend w 0 [ev]).
Proof. unfold emit, extend. by rewrite Nat.add_0_r. Qed.

Lemma urlFetch_extend env url options w :
  urlFetch env url options w
  = (Normal (fetch env (fetches w) url options),
     extend w 1 [EvFetch url options (fetch env (fetches w) url options)]).
Proof. unfold urlFetch, extend. by rewrite Nat.add_1_r. Qed.

(** *** [postToIngress] *)

(** The loop never throws; its events are those of [attempt_log], and the
    outcome of its [k]-th fetch is the one the environment gives. *)
Lemma postAttempts_log env url options n i w :
  ∃ b evs,
    postAttempts env url options n i w
    = (Normal b, extend w (length (fetch_results evs)) evs)
    ∧ attempt_log url options n i b evs
    ∧ ∀ (k : nat) res, fetch_results evs !! k = Some res →
        res = fetch env (fetches w + k) url options.
Proof.
  revert i w. induction n as [|n IH]; intros i w.
  { exists false, []. rewrite extend_nothing. split_and!; [done|constructor|done]. }
  cbn [postAttempts]. unfold bind at 1. rewrite urlFetch_extend.
  set (w1 := extend w 1 _).
  destruct (fetch env (fetches w) url options) as [e|code content] eqn:Hres.
  - unfold bind. rewrite !emit_extend.
    destruct (IH (i + 1) (extend (extend w1 0 [EvWarn (WarnError i e)]) 0
                            [EvSleep (500 * i)]))
      as (b & evs & -> & Hlog & Hfetch).
    exists b, (EvFetch url options (FetchError e)
                 :: EvWarn (WarnError i e) :: EvSleep (500 * i) :: evs).
    split_and!.
    + unfold w1. rewrite !extend_extend. done.
    + by constructor.
    + intros [|k] res; cbn; [intros [= <-]; by rewrite Nat.add_0_r|].
      intros Hk. rewrite (Hfetch k res Hk). cbn. f_equal. lia.
  - destruct (success code) eqn:Hcode.
    + exists true, [EvFetch url options (FetchResponse code content)].
      split_and!; [done|by constructor|].
      intros [|k] res; cbn; [|done].
      intros [= <-]. by rewrite Nat.add_0_r.
    + unfold bind. rewrite !emit_extend.
      destruct (IH (i + 1)
                  (extend (extend w1 0 [EvWarn (WarnResponse code content)]) 0
                     [EvSleep (500 * i)]))
        as (b & evs & -> & Hlog & Hfetch).
      exists b, (EvFetch url options (FetchResponse code content)
                   :: EvWarn (WarnResponse code content)
                   :: EvSleep (500 * i) :: evs).
      split_and!.
      * unfold w1. rewrite !extend_extend. done.
      * by constructor.
      * intros [|k] res; cbn; [intros [= <-]; by rewrite Nat.add_0_r|].
        intros Hk. rewrite (Hfetch k res Hk). cbn. f_equal. lia.
Qed.

Section AttemptLog.
Context (url : string) (options : FetchOptions).

Lemma log_forwarded n i b evs :
  attempt_log url options n i b evs →
  forwarded evs = if b then [fileId (payload options)] else [].
Proof.
  induction 1 as [|n i code content Hc|n i code content b evs Hc _ IH|n i e b evs _ IH];
    cbn; rewrite ?Hc; done.
Qed.

Lemma log_attempted n i b evs :
  attempt_log url options (S n) i b evs →
  fileId (payload options) ∈ omap attempted evs.
Proof. inversion 1; subst; cbn; apply list_elem_of_here. Qed.

Lemma log_no_list n i b evs :
  attempt_log url options n i b evs → omap listed_args evs = [].
Proof. induction 1; done. Qed.

(** The attempts and the sleeps of the loop: at most [n] fetches; the result
    is [true] exactly when a fetch was answered, which is then the last one;
    [false] comes after [n] fetches; a sleep follows each fetch that was not
    answered, of 500 ms times the counter. *)
Lemma log_attempts n i b evs :
  attempt_log url options n i b evs →
  let rs := fetch_results evs in
  let failed := length (filter (λ r, answered r = false) rs) in
  (length rs ≤ n)%nat
  ∧ (b = true ↔ Exists (λ r, answered r = true) rs)
  ∧ (b = false → length rs = n)
  ∧ omap slept evs = (λ k, 500 * (i + Z.of_nat k)) <$> seq 0 failed.
Proof.
  induction 1 as [|n i code content Hc|n i code content b evs Hc _ IH|n i e b evs _ IH];
    cbn zeta in *.
  - split_and!; [done| |done|done].
    split; [done|]. by intros ?%Exists_nil.
  - change (fetch_results [?a]) with [FetchResponse code content].
    rewrite filter_cons_False, filter_nil by (cbn; congruence).
    split_and!; cbn; [lia| |done|done].
    split; [|done]. intros _. apply Exists_cons_hd. done.
  - destruct IH as (Hlen & Hb & Hfalse & Hsleep).
    change (fetch_results (?a :: ?b :: ?c :: evs)) with
      (FetchResponse code content :: fetch_results evs).
    rewrite filter_cons_True by done.
    split_and!; cbn [length]; [lia| |intros ?; f_equal; auto|].
    + rewrite Hb, Exists_cons. cbn. rewrite Hc.
      split; [by right|]. by intros [?|?].
    + cbn. rewrite Hsleep. rewrite Z.add_0_r. f_equal.
      rewrite <- seq_shift, <- list_fmap_compose.
      apply list_fmap_ext. intros _ k _. cbn. f_equal. lia.
  - destruct IH as (Hlen & Hb & Hfalse & Hsleep).
    change (fetch_results (?a :: ?b :: ?c :: evs)) with
      (FetchError e :: fetch_results evs).
    rewrite filter_cons_True by done.
    split_and!; cbn [length]; [lia| |intros ?; f_equal; auto|].
    + rewrite Hb, Exists_cons. cbn.
      split; [by right|]. by intros [?|?].
    + cbn. rewrite Hsleep. rewrite Z.add_0_r. f_equal.
      rewrite <- seq_shift, <- list_fmap_compose.
      apply list_fmap_ext. intros _ k _. cbn. f_equal. lia.
Qed.

Lemma log_attempted_only n i b evs x :
  attempt_log url options n i b evs →
  x ∈ omap attempted evs → x = fileId (payload options).
Proof.
  induction 1 as [|n i code content Hc|n i code content b evs Hc _ IH|n i e b evs _ IH];
    cbn.
  - by intros ?%elem_of_nil.
  - by intros ?%list_elem_of_singleton.
  - intros [?|?]%elem_of_cons; auto.
  - intros [?|?]%elem_of_cons; auto.
Qed.

End AttemptLog.

(** *** Visiting the files of a page *)

Lemma advance_nothing w : advance w [] = w.
Proof. apply extend_nothing. Qed.

Lemma advance_advance w evs1 evs2 :
  advance (advance w evs1) evs2 = advance w (evs1 ++ evs2).
Proof.
  unfold advance. rewrite extend_extend. unfold fetch_results.
  by rewrite omap_app, length_app.
Qed.

Lemma forwarded_app evs1 evs2 :
  forwarded (evs1 ++ evs2) = forwarded evs1 ++ forwarded evs2.
Proof. apply omap_app. Qed.

(** A confirmed hand-off is a fetch that was attempted. *)
Lemma forwarded_attempted evs x :
  x ∈ forwarded evs → x ∈ omap attempted evs.
Proof.
  induction evs as [|ev evs IH]; [done|].
  destruct ev as [| | url o [e|code content]| | |]; cbn; auto.
  - intros ?. apply elem_of_cons. auto.
  - destruct (success code); cbn.
    + intros [?|?]%elem_of_cons; apply elem_of_cons; auto.
    + intros ?. apply elem_of_cons. auto.
Qed.

Lemma visit_nothing seen : visit seen [].
Proof. split_and!; [done|by intros ? ?%elem_of_nil|]. by rewrite app_nil_r. Qed.

Lemma visit_app seen evs1 evs2 :
  visit seen evs1 → visit (seen ++ forwarded evs1) evs2 →
  visit seen (evs1 ++ evs2).
Proof.
  intros (Hl1 & Ha1 & Hn1) (Hl2 & Ha2 & Hn2). split_and!.
  - by rewrite omap_app, Hl1, Hl2.
  - intros x. rewrite omap_app, elem_of_app. intros [Hx|Hx]; [by apply Ha1|].
    intros Hseen. apply (Ha2 x Hx). apply elem_of_app. by left.
  - intros Hseen. rewrite forwarded_app, app_assoc. auto.
Qed.

Lemma eachFile_visit env cfg f seen count w :
  ∃ evs,
    eachFile env cfg f (seen, count) w
    = (Normal (seen ++ forwarded evs,
               count + Z.of_nat (length (forwarded evs))),
       advance w evs)
    ∧ visit seen evs
    ∧ (id f ∈ seen ∨ id f ∈ omap attempted evs).
Proof.
  unfold eachFile, set_has. case_bool_decide as Hseen.
  { exists []. rewrite advance_nothing, app_nil_r, Z.add_0_r.
    split_and!; [done|apply visit_nothing|by left]. }
  unfold postToIngress, attempts, bind.
  match goal with |- context [postAttempts env ?u ?o 3 1 w] =>
    destruct (postAttempts_log env u o 3 1 w) as (b & evs & -> & Hlog & _);
    pose proof (log_forwarded _ _ _ _ _ _ Hlog) as Hfwd;
    pose proof (log_attempted _ _ _ _ _ _ Hlog) as Hatt;
    pose proof (log_no_list _ _ _ _ _ _ Hlog) as Hlist;
    pose proof (λ x, log_attempted_only _ _ _ _ _ _ x Hlog) as Honly
  end.
  cbn in Hfwd, Hatt, Honly.
  exists evs. split_and!.
  - rewrite Hfwd. destruct b; cbn.
    + unfold set_add, set_has. by rewrite bool_decide_eq_false_2.
    + by rewrite app_nil_r, Z.add_0_r.
  - split_and!; [done| |].
    + intros x ->%Honly. done.
    + intros Hnd. rewrite Hfwd. destruct b; [|by rewrite app_nil_r].
      apply NoDup_app. split_and!; [done| |apply NoDup_singleton].
      by intros x ? ->%list_elem_of_singleton.
  - by right.
Qed.

Lemma forEach_visit env cfg files seen count w :
  ∃ evs,
    forEach (eachFile env cfg) files (seen, count) w
    = (Normal (seen ++ forwarded evs,
               count + Z.of_nat (length (forwarded evs))),
       advance w evs)
    ∧ visit seen evs
    ∧ ∀ f, f ∈ files → id f ∈ seen ∨ id f ∈ omap attempted evs.
Proof.
  revert seen count w. induction files as [|f files IH]; intros seen count w.
  { exists []. rewrite advance_nothing, app_nil_r, Z.add_0_r.
    split_and!; [done|apply visit_nothing|by intros ? ?%elem_of_nil]. }
  cbn [forEach]. unfold bind.
  destruct (eachFile_visit env cfg f seen count w)
    as (evs1 & -> & Hv1 & Hf).
  destruct (IH (seen ++ forwarded evs1)
              (count + Z.of_nat (length (forwarded evs1))) (advance w evs1))
    as (evs2 & -> & Hv2 & Hfiles).
  exists (evs1 ++ evs2). split_and!.
  - rewrite advance_advance, forwarded_app, length_app, <- app_assoc.
    do 3 f_equal. lia.
  - by apply visit_app.
  - intros g [->|Hg]%elem_of_cons.
    + destruct Hf as [?|?]; [by left|right].
      rewrite omap_app. apply elem_of_app. by left.
    + destruct (Hfiles g Hg) as [[?|?]%elem_of_app|?].
      * by left.
      * right. rewrite omap_app. apply elem_of_app. left.
        by apply forwarded_attempted.
      * right. rewrite omap_app. apply elem_of_app. by right.
Qed.

(** *** The pages of a scan *)

Lemma visit_fresh seen evs : visit seen evs → fresh seen evs.
Proof. by intros (_ & ? & ?). Qed.

Lemma fresh_app seen evs1 evs2 :
  fresh seen evs1 → fresh (seen ++ forwarded evs1) evs2 →
  fresh seen (evs1 ++ evs2).
Proof.
  intros (Ha1 & Hn1) (Ha2 & Hn2). split.
  - intros x. rewrite omap_app, elem_of_app. intros [Hx|Hx]; [by apply Ha1|].
    intros Hseen. apply (Ha2 x Hx). apply elem_of_app. by left.
  - intros Hseen. rewrite forwarded_app, app_assoc. auto.
Qed.

Lemma emit_list_advance a w : emit (EvList a) w = (Normal tt, advance w [EvList a]).
Proof. apply emit_extend. Qed.

(** One run of the paging loop.  Whether it ends or the Drive throws, the
    first event is the call with the page token it was entered with, every
    call carries the query, and the fetches are for unseen ids only.  When
    it ends, the set is the one it started with followed by the confirmed
    ids, and every file of the pages read was in the set or attempted. *)
Lemma pollPages_fresh env cfg query l tok seen count w :
  ∃ c evs,
    pollPages env cfg query l tok (seen, count) w
    = (c, advance w (EvList (listArgs query tok) :: evs))
    ∧ Forall (λ a, q a = query) (omap listed_args evs)
    ∧ fresh seen evs
    ∧ match c with
      | Normal st =>
          st = (seen ++ forwarded evs,
                count + Z.of_nat (length (forwarded evs)))
          ∧ ∀ f, f ∈ listed l → id f ∈ seen ∨ id f ∈ omap attempted evs
      | Throw e => ∃ msg, e = DriveError msg
      end.
Proof.
  revert tok seen count w.
  induction l as [msg|files|files next rest IH]; intros tok seen count w;
    cbn [pollPages]; unfold bind at 1; rewrite emit_list_advance.
  - exists (Throw (DriveError msg)), []. split_and!; [done|done| |by eexists].
    apply visit_fresh, visit_nothing.
  - destruct (forEach_visit env cfg (default [] files) seen count
                (advance w [EvList (listArgs query tok)]))
      as (evs & -> & Hv & Hfiles).
    exists (Normal (seen ++ forwarded evs,
                    count + Z.of_nat (length (forwarded evs)))), evs.
    rewrite advance_advance. split_and!; [done| |by apply visit_fresh|done|done].
    destruct Hv as (-> & _). constructor.
  - unfold bind.
    destruct (forEach_visit env cfg (default [] files) seen count
                (advance w [EvList (listArgs query tok)]))
      as (evs1 & -> & Hv1 & Hfiles).
    rewrite advance_advance. cbn [listed].
    destruct (decide (next = "")) as [Hnext|Hnext].
    { exists (Normal (seen ++ forwarded evs1,
                      count + Z.of_nat (length (forwarded evs1)))), evs1.
      split_and!; [done| |by apply visit_fresh|done|].
      - destruct Hv1 as (-> & _). constructor.
      - intros f. rewrite app_nil_r. auto. }
    destruct (IH (Some next) (seen ++ forwarded evs1)
                (count + Z.of_nat (length (forwarded evs1)))
                (advance w ([EvList (listArgs query tok)] ++ evs1)))
      as (c & evs2 & -> & Hq & Hfresh & Hc).
    exists c, (evs1 ++ EvList (listArgs query (Some next)) :: evs2).
    assert (fresh seen (evs1 ++ EvList (listArgs query (Some next)) :: evs2))
      as Hall.
    { apply fresh_app; [by apply visit_fresh|]. done. }
    split_and!.
    + rewrite advance_advance. by rewrite <- app_assoc.
    + rewrite omap_app. destruct Hv1 as (-> & _). cbn. by constructor.
    + done.
    + destruct c as [st|e]; [|done]. destruct Hc as (-> & Hrest).
      split.
      * rewrite forwarded_app.
        change (forwarded (EvList ?a :: evs2)) with (forwarded evs2).
        rewrite length_app, <- app_assoc. f_equal. lia.
      * intros f [Hf|Hf]%elem_of_app.
        -- destruct (Hfiles f Hf) as [?|?]; [by left|right].
           rewrite omap_app. apply elem_of_app. by left.
        -- destruct (Hrest f Hf) as [[?|?]%elem_of_app|?].
           ++ by left.
           ++ right. rewrite omap_app. apply elem_of_app. left.
              by apply forwarded_attempted.
           ++ right. rewrite omap_app. apply elem_of_app. by right.
Qed.

(** *** One invocation *)

Lemma loadConfig_config P :
  loadConfig (start P)
  = (match config P with
     | Some cfg => Normal cfg
     | None => Throw MissingProperties
     end, start P).
Proof.
  unfold config, loadConfig, bind, getProperty, throw, ret. cbn.
  by destruct (falsy _ || falsy _ || falsy _).
Qed.

(** [pollFolder], step by step. *)
Lemma invoke_unfold env P :
  invoke env P =
  match config P with
  | None => (Throw MissingProperties, start P)
  | Some cfg =>
      match JsDate.toISOString (since env (lookbackMinutes cfg)) with
      | None => (Throw RangeError, marked env P)
      | Some sinceIso =>
          match cache P with
          | None => (Throw SeenIdsUnreadable, marked env P)
          | Some seen =>
              let query := scanQuery (cfg_folderId cfg) sinceIso in
              match pollPages env cfg query (drive env (listArgs query None))
                      None (seen, 0) (marked env P) with
              | (Throw e, w) => (Throw e, w)
              | (Normal (seen', count), w) =>
                  (Normal tt, closed w seen' count sinceIso)
              end
          end
      end
  end.
Proof.
  unfold invoke, pollFolder. unfold bind at 1. rewrite loadConfig_config.
  destruct (config P) as [cfg|]; [|done].
  unfold bind at 1. unfold computeSinceIso, bind at 1. cbn [isoString JsDate.toISOString].
  unfold ret at 1. unfold bind at 1. unfold setProperty at 1.
  change (isoString ?d) with (isoString (since env (lookbackMinutes cfg))).
  unfold isoString.
  change {| props := _; fetches := _; trace := _ |} with (marked env P).
  destruct (JsDate.toISOString (since env (lookbackMinutes cfg)))
    as [sinceIso|]; [|done].
  unfold ret at 1. unfold bind at 1. unfold loadSeenIds, bind at 1, getProperty at 1.
  unfold cache.
  change (props (marked env P) !! "SEEN_IDS_JSON")
    with (<["LAST_RUN_ISO" := JsDate.format (now env)]> P !! "SEEN_IDS_JSON").
  rewrite lookup_insert_ne by done.
  destruct (JSON.parse (or_default (P !! "SEEN_IDS_JSON") "[]")) as [arr|];
    [|done].
  cbn [fmap option_fmap option_map]. unfold ret at 1. unfold bind at 1.
  destruct (pollPages _ _ _ _ _ _ _) as [[[seen' count]|e] w]; [|done].
  unfold bind, persistSeenIds, setProperty, emit, closed. cbn.
  by rewrite <- app_assoc.
Qed.

(** An invocation that completes: what it loaded, what it did and what it
    left. *)
Lemma invoke_normal env P w :
  invoke env P = (Normal tt, w) →
  ∃ cfg sinceIso seen evs count,
    let query := scanQuery (cfg_folderId cfg) sinceIso in
    config P = Some cfg
    ∧ JsDate.toISOString (since env (lookbackMinutes cfg)) = Some sinceIso
    ∧ cache P = Some seen
    ∧ w = closed (advance (marked env P) (EvList (listArgs query None) :: evs))
                 (seen ++ forwarded evs) count sinceIso
    ∧ Forall (λ a, q a = query) (omap listed_args evs)
    ∧ fresh seen evs
    ∧ ∀ f, f ∈ listed (drive env (listArgs query None)) →
           id f ∈ seen ∨ id f ∈ omap attempted evs.
Proof.
  rewrite invoke_unfold.
  destruct (config P) as [cfg|]; [|done].
  destruct (JsDate.toISOString _) as [sinceIso|] eqn:Hiso; [|done].
  destruct (cache P) as [seen|]; [|done]. cbn zeta.
  destruct (pollPages_fresh env cfg (scanQuery (cfg_folderId cfg) sinceIso)
              (drive env (listArgs (scanQuery (cfg_folderId cfg) sinceIso) None))
              None seen 0 (marked env P))
    as (c & evs & -> & Hq & Hfresh & Hc).
  destruct c as [[seen' count]|e]; [|done].
  destruct Hc as ([= -> ->] & Hlisted). intros [= <-].
  by exists cfg, sinceIso, seen, evs, (0 + Z.of_nat (length (forwarded evs))).
Qed.

Lemma stringify_not_empty l : JSON.stringify l ≠ ""%string.
Proof. by destruct l. Qed.

(** A loaded cache has no duplicates and at most 500 ids. *)
Lemma cache_bounded P seen :
  cache P = Some seen → NoDup seen ∧ (length seen ≤ 500)%nat.
Proof.
  unfold cache. destruct (JSON.parse _) as [arr|]; [|done].
  intros [= <-]. split; [apply NoDup_distinct|].
  etrans; [apply length_distinct|]. rewrite length_slice_last. lia.
Qed.

(** The cache that is loaded after [seen] was persisted. *)
Lemma cache_persisted (P : Props) seen :
  NoDup seen →
  cache (<["SEEN_IDS_JSON" := JSON.stringify (slice_last 500 seen)]> P)
  = Some (slice_last 500 seen).
Proof.
  intros Hnd. unfold cache. rewrite lookup_insert_eq. unfold or_default.
  rewrite decide_False by apply stringify_not_empty.
  rewrite parse_stringify. cbn. f_equal.
  rewrite slice_last_all by (rewrite length_slice_last; lia).
  apply (distinct_NoDup (A:=string)). by apply NoDup_slice_last.
Qed.

(** The events of a completed invocation other than the visits add nothing
    to the ids attempted or confirmed. *)
Lemma closed_trace env P a evs seen count sinceIso :
  let w := closed (advance (marked env P) (EvList a :: evs)) seen count sinceIso in
  forwarded (trace w) = forwarded evs
  ∧ omap attempted (trace w) = omap attempted evs
  ∧ omap listed_args (trace w) = a :: omap listed_args evs.
Proof.
  cbn. unfold forwarded. rewrite !omap_app. cbn. by rewrite !app_nil_r.
Qed.

(** The cache from one completed invocation to the next: the ids their
    hand-off was confirmed for are put behind the loaded ones, nothing is
    fetched for a loaded id, and the last 500 are kept. *)
Lemma invoke_cache env P w :
  invoke env P = (Normal tt, w) →
  ∃ seen,
    cache P = Some seen
    ∧ fresh seen (trace w)
    ∧ NoDup (seen ++ forwarded (trace w))
    ∧ cache (props w) = Some (slice_last 500 (seen ++ forwarded (trace w))).
Proof.
  intros (cfg & sinceIso & seen & evs & count & Hcfg & Hiso & Hseen & ->
          & Hq & Hfresh & Hlisted)%invoke_normal.
  destruct (closed_trace env P
              (listArgs (scanQuery (cfg_folderId cfg) sinceIso) None)
              evs (seen ++ forwarded evs) count sinceIso) as (Hf & Ha & Hl).
  cbn zeta in Hf, Ha, Hl.
  destruct (cache_bounded P seen Hseen) as [Hnd Hlen].
  pose proof Hfresh as [Hskip Hnodup].
  exists seen. rewrite Hf. split_and!; [done| |by auto|].
  - unfold fresh. rewrite Ha, Hf. done.
  - cbn [closed props]. by apply cache_persisted, Hnodup.
Qed.

(** *** Successive invocations *)

Lemma props_after_app P envs1 envs2 :
  props_after P (envs1 ++ envs2) = props_after (props_after P envs1) envs2.
Proof. unfold props_after. by rewrite fold_left_app. Qed.

Lemma invocations_app P envs1 envs2 :
  invocations P (envs1 ++ envs2)
  = invocations P envs1 ++ invocations (props_after P envs1) envs2.
Proof.
  revert P. induction envs1 as [|env envs1 IH]; intros P; [done|].
  cbn [invocations app]. by rewrite IH.
Qed.

Lemma forwarded_by_app rs1 rs2 :
  forwarded_by (rs1 ++ rs2) = forwarded_by rs1 ++ forwarded_by rs2.
Proof. unfold forwarded_by. by rewrite map_app, concat_app. Qed.

(** The cache is the last 500 ids of a history: the ids loaded at first,
    followed by the ids confirmed since.  Equal ids of the history are more
    than 500 positions apart. *)
Lemma invocations_spaced P envs (history : list string) :
  Forall completes (invocations P envs) →
  cache P = Some (slice_last 500 history) →
  spaced 500 history →
  let history' := history ++ forwarded_by (invocations P envs) in
  spaced 500 history'
  ∧ cache (props_after P envs) = Some (slice_last 500 history').
Proof.
  revert P history. induction envs as [|env envs IH]; intros P history.
  { intros _ Hc Hs. cbn. by rewrite app_nil_r. }
  cbn [invocations]. intros [Hdone Hrest]%Forall_cons Hc Hs.
  destruct (invoke env P) as [c w] eqn:Hinv. unfold completes in Hdone.
  cbn in Hdone, Hrest. subst c.
  destruct (invoke_cache env P w Hinv) as (seen & Hseen & _ & Hnd & Hnext).
  rewrite Hc in Hseen. injection Hseen as <-.
  rewrite slice_last_app in Hnext.
  destruct (IH (props w) (history ++ forwarded (trace w)) Hrest Hnext)
    as [Hs' Hc'].
  { by apply spaced_app. }
  cbn zeta in *. unfold forwarded_by in *. cbn [map concat snd].
  rewrite app_assoc. split; [done|].
  unfold props_after in *. cbn [fold_left]. by rewrite Hinv.
Qed.

(** The history an invocation sequence starts with is the loaded cache. *)
Lemma cache_history P seen :
  cache P = Some seen →
  cache P = Some (slice_last 500 seen) ∧ spaced 500 seen.
Proof.
  intros Hc. destruct (cache_bounded P seen Hc) as [Hnd Hlen].
  rewrite slice_last_all by done. split; [done|]. by apply spaced_NoDup.
Qed.

Lemma completes_cache env P envs :
  Forall completes (invocations P (env :: envs)) → is_Some (cache P).
Proof.
  cbn [invocations]. intros [Hdone _]%Forall_cons.
  destruct (invoke env P) as [c w] eqn:Hinv. unfold completes in Hdone.
  cbn in Hdone. subst c.
  destruct (invoke_cache env P w Hinv) as (seen & -> & _). by eexists.
Qed.

End PollerFacts.

(* ===================================================================== *)
(** ** The properties of the poller                                       *)
(* ===================================================================== *)

Section PollerProperties.
Import Poller.

(** C5, as the script has it.  [postToIngress] never throws and makes at
    most 3 attempts, each answered as the environment answers the fetch.  It
    returns [true] exactly when an attempt received a code in [200, 300),
    and [false] exactly when 3 attempts were made and none did.  After each
    attempt that was not answered it warns and sleeps 500 ms times the
    number of the attempt: 500, 1000, 1500, a delay that grows by the same
    500 ms each time. *)
Theorem postToIngress_attempts env url apiKey obj w :
  ∃ b evs,
    postToIngress env url apiKey obj w
    = (Normal b, extend w (length (fetch_results evs)) evs)
    ∧ attempt_log url (ingressOptions apiKey obj) 3 1 b evs
    ∧ let rs := fetch_results evs in
      let failed := length (filter (λ r, answered r = false) rs) in
      (length rs ≤ 3)%nat
      ∧ (∀ (k : nat) res, rs !! k = Some res →
           res = fetch env (fetches w + k) url (ingressOptions apiKey obj))
      ∧ (b = true ↔ Exists (λ r, answered r = true) rs)
      ∧ (b = false ↔ length rs = 3%nat ∧ Forall (λ r, answered r = false) rs)
      ∧ omap slept evs = (λ k, 500 * Z.of_nat k) <$> seq 1 failed.
Proof.
  unfold postToIngress, attempts.
  destruct (postAttempts_log env url (ingressOptions apiKey obj) 3 1 w)
    as (b & evs & Heq & Hlog & Hfetch).
  exists b, evs. split; [done|]. split; [done|].
  destruct (log_attempts _ _ _ _ _ _ Hlog) as (Hlen & Htrue & Hfalse & Hsleep).
  cbn zeta. split_and!; [done|done|done| |].
  - split.
    + intros ->. split; [by apply Hfalse|].
      apply Forall_forall. intros r Hr.
      destruct (answered r) eqn:Hans; [|done].
      assert (false = true) as Habs; [|done].
      apply Htrue. apply Exists_exists. eauto.
    + intros [_ Hall]. destruct b; [|done].
      destruct Htrue as [Hex _]. specialize (Hex eq_refl).
      apply Exists_exists in Hex as (r & Hr & Hans).
      rewrite Forall_forall in Hall. specialize (Hall r Hr). congruence.
  - rewrite Hsleep. rewrite <- seq_shift, <- list_fmap_compose.
    apply list_fmap_ext. intros _ k _. cbn. f_equal. lia.
Qed.

(** C5, where the design's wording fails: when the Ingress function refuses
    every attempt the script sleeps 500, 1000 and 1500 ms, which is not an
    exponential schedule (1000 is twice 500, 1500 is not twice 1000). *)
Lemma backoff_not_exponential :
  let w := snd (postToIngress (Sample.env_at Sample.T [] Sample.refuse)
                  "https://ingress.example/" "k" Sample.receipt (start ∅)) in
  omap slept (trace w) = [500; 1000; 1500]
  ∧ ¬ geometric (omap slept (trace w)).
Proof.
  cbn zeta.
  assert (omap slept
            (trace (snd (postToIngress (Sample.env_at Sample.T [] Sample.refuse)
                           "https://ingress.example/" "k" Sample.receipt
                           (start ∅))))
          = [500; 1000; 1500]) as ->.
  { vm_compute. reflexivity. }
  split; [done|]. intros Hgeo.
  specialize (Hgeo 0%nat 500 1000 1500 eq_refl eq_refl eq_refl). lia.
Qed.

(** *** The configuration and the watermark *)

Lemma config_missing (P : Props) :
  P !! "FOLDER_ID"%string = None ∨ P !! "INGRESS_URL"%string = None
    ∨ P !! "API_KEY"%string = None →
  config P = None.
Proof.
  intros H. unfold config, loadConfig, bind, getProperty, throw, ret. cbn.
  destruct H as [-> | [-> | ->]]; cbn; rewrite ?orb_true_r; done.
Qed.

(** LOOKBACK_MINUTES defaults to 5 when it is not set, and is [NaN] when it
    does not start with a number. *)
Remark lookback_default :
  lookbackMinutes <$> config (delete "LOOKBACK_MINUTES"%string Sample.configured)
  = Some (Some 5)
  ∧ lookbackMinutes
      <$> config (<["LOOKBACK_MINUTES"%string := "five"%string]> Sample.configured)
    = Some None.
Proof. vm_compute. split; reflexivity. Qed.

(** C10.  When one of FOLDER_ID, INGRESS_URL and API_KEY is not set,
    [loadConfig] throws, and so does [pollFolder], having done nothing: no
    property was written (not even the watermark), the Drive was not called,
    nothing was fetched, nothing was logged. *)
Theorem misconfigured_no_effect env (P : Props) :
  P !! "FOLDER_ID"%string = None ∨ P !! "INGRESS_URL"%string = None
    ∨ P !! "API_KEY"%string = None →
  fst (loadConfig (start P)) = Throw MissingProperties
  ∧ fst (invoke env P) = Throw MissingProperties
  ∧ props (snd (invoke env P)) = P
  ∧ trace (snd (invoke env P)) = []
  ∧ fetches (snd (invoke env P)) = 0%nat.
Proof.
  intros Hmissing%config_missing.
  rewrite loadConfig_config, invoke_unfold, Hmissing. done.
Qed.

Lemma misconfigured_no_effect_witness :
  (delete "API_KEY"%string Sample.configured) !! "API_KEY"%string = None
  ∧ fst (invoke (Sample.env_at Sample.T [Sample.file "f1"] Sample.accept)
           (delete "API_KEY"%string Sample.configured))
    = Throw MissingProperties
  ∧ trace (snd (invoke (Sample.env_at Sample.T [Sample.file "f1"] Sample.accept)
                  (delete "API_KEY"%string Sample.configured))) = [].
Proof.
  assert ((delete "API_KEY"%string Sample.configured) !! "API_KEY"%string = None)
    as Hnone by apply lookup_delete_eq.
  split; [exact Hnone|].
  destruct (misconfigured_no_effect
              (Sample.env_at Sample.T [Sample.file "f1"] Sample.accept)
              (delete "API_KEY"%string Sample.configured))
    as (_ & H2 & _ & H4 & _).
  - right. right. exact Hnone.
  - split; [exact H2|exact H4].
Defined.

Lemma config_insert_watermark (P : Props) v :
  config (<["LAST_RUN_ISO"%string := v]> P) = config P.
Proof.
  unfold config, loadConfig, bind, getProperty. cbn.
  rewrite !lookup_insert_ne by done.
  by destruct (falsy _ || falsy _ || falsy _).
Qed.

Lemma config_delete_watermark (P : Props) :
  config (delete "LAST_RUN_ISO"%string P) = config P.
Proof.
  unfold config, loadConfig, bind, getProperty. cbn.
  rewrite !lookup_delete_ne by done.
  by destruct (falsy _ || falsy _ || falsy _).
Qed.

Lemma cache_insert_watermark (P : Props) v :
  cache (<["LAST_RUN_ISO"%string := v]> P) = cache P.
Proof. unfold cache. by rewrite lookup_insert_ne. Qed.

Lemma cache_delete_watermark (P : Props) :
  cache (delete "LAST_RUN_ISO"%string P) = cache P.
Proof. unfold cache. by rewrite lookup_delete_ne. Qed.

Lemma marked_insert_watermark env (P : Props) v :
  marked env (<["LAST_RUN_ISO"%string := v]> P) = marked env P.
Proof. unfold marked. by rewrite insert_insert_eq. Qed.

Lemma marked_delete_watermark env (P : Props) :
  marked env (delete "LAST_RUN_ISO"%string P) = marked env P.
Proof. unfold marked. by rewrite insert_delete_eq. Qed.

(** An invocation that loads a configuration has written the watermark,
    and leaves the same world whatever the watermark was. *)
Lemma invoke_marked env (P Q : Props) :
  is_Some (config P) → config Q = config P → cache Q = cache P →
  marked env Q = marked env P →
  invoke env Q = invoke env P
  ∧ props (snd (invoke env P)) !! "LAST_RUN_ISO"%string
    = Some (JsDate.format (now env)).
Proof.
  intros [cfg Hcfg] HQ Hcache Hmarked.
  rewrite !invoke_unfold, HQ, Hcache, Hmarked, Hcfg. split; [done|].
  destruct (JsDate.toISOString _) as [sinceIso|]; [|apply lookup_insert_eq].
  destruct (cache P) as [seen|]; [|apply lookup_insert_eq]. cbn zeta.
  destruct (pollPages_fresh env cfg (scanQuery (cfg_folderId cfg) sinceIso)
              (drive env (listArgs (scanQuery (cfg_folderId cfg) sinceIso) None))
              None seen 0 (marked env P))
    as (c & evs & -> & _).
  destruct c as [[seen' count]|e]; cbn.
  - rewrite lookup_insert_ne by done. apply lookup_insert_eq.
  - apply lookup_insert_eq.
Qed.

(** C8.  The watermark LAST_RUN_ISO is never read: with another value of it,
    or without it, an invocation completes the same way, makes the same
    calls of the Drive and the same fetches (the same trace), and leaves the
    same properties apart from the watermark itself; so the same seen-id
    cache.  The watermark is written by every invocation that loads its
    configuration, also by one that fails later, and the properties left are
    then the same altogether. *)
Theorem watermark_not_read env (P : Props) v :
  let r := invoke env P in
  (∀ r', r' = invoke env (<["LAST_RUN_ISO"%string := v]> P)
         ∨ r' = invoke env (delete "LAST_RUN_ISO"%string P) →
     fst r' = fst r
     ∧ trace (snd r') = trace (snd r)
     ∧ forwarded (trace (snd r')) = forwarded (trace (snd r))
     ∧ delete "LAST_RUN_ISO"%string (props (snd r'))
       = delete "LAST_RUN_ISO"%string (props (snd r))
     ∧ cache (props (snd r')) = cache (props (snd r))
     ∧ (is_Some (config P) → r' = r))
  ∧ (is_Some (config P) →
     props (snd r) !! "LAST_RUN_ISO"%string = Some (JsDate.format (now env))).
Proof.
  cbn zeta. destruct (config P) as [cfg|] eqn:Hcfg.
  - assert (is_Some (config P)) as Hsome by (rewrite Hcfg; by eexists).
    split.
    + intros r' [-> | ->].
      * destruct (invoke_marked env P (<["LAST_RUN_ISO"%string := v]> P) Hsome)
          as [-> _];
          [apply config_insert_watermark|apply cache_insert_watermark
          |apply marked_insert_watermark|].
        by split_and!.
      * destruct (invoke_marked env P (delete "LAST_RUN_ISO"%string P) Hsome)
          as [-> _];
          [apply config_delete_watermark|apply cache_delete_watermark
          |apply marked_delete_watermark|].
        by split_and!.
    + intros _. by apply (invoke_marked env P P).
  - split; [|by intros [? ?]].
    intros r' [-> | ->]; rewrite !invoke_unfold.
    + rewrite config_insert_watermark, Hcfg. cbn.
      rewrite delete_insert_eq, cache_insert_watermark.
      split_and!; [done..|]. by intros [? ?].
    + rewrite config_delete_watermark, Hcfg. cbn.
      rewrite delete_delete_eq, cache_delete_watermark.
      split_and!; [done..|]. by intros [? ?].
Qed.

Lemma watermark_not_read_witness :
  is_Some (config Sample.configured)
  ∧ invoke (Sample.env_at Sample.T [Sample.file "f1"] Sample.accept)
      (<["LAST_RUN_ISO"%string := "1999-12-31T23:59:59.000Z"%string]>
         Sample.configured)
    = invoke (Sample.env_at Sample.T [Sample.file "f1"] Sample.accept)
        Sample.configured
  ∧ props (snd (invoke (Sample.env_at Sample.T [Sample.file "f1"] Sample.accept)
                  Sample.configured)) !! "LAST_RUN_ISO"%string
    = Some "2025-09-12T03:00:00.000Z"%string.
Proof.
  assert (is_Some (config Sample.configured)) as Hsome.
  { vm_compute. eexists. reflexivity. }
  split; [exact Hsome|].
  destruct (watermark_not_read
              (Sample.env_at Sample.T [Sample.file "f1"] Sample.accept)
              Sample.configured "1999-12-31T23:59:59.000Z"%string)
    as [Hsame Hwritten].
  split.
  - destruct (Hsame _ (or_introl eq_refl)) as (_ & _ & _ & _ & _ & Heq).
    exact (Heq Hsome).
  - exact (Hwritten Hsome).
Defined.

(** *** The scan window *)

(** The calls of the Drive of an invocation that got as far as the scan:
    the first one without a page token, all of them with the query. *)
Lemma invoke_listing env P cfg sinceIso seen :
  config P = Some cfg →
  JsDate.toISOString (since env (lookbackMinutes cfg)) = Some sinceIso →
  cache P = Some seen →
  let query := scanQuery (cfg_folderId cfg) sinceIso in
  ∃ rest,
    omap listed_args (trace (snd (invoke env P)))
    = listArgs query None :: rest
    ∧ Forall (λ a, q a = query) rest.
Proof.
  intros Hcfg Hiso Hseen. cbn zeta.
  rewrite invoke_unfold, Hcfg, Hiso, Hseen. cbn zeta.
  destruct (pollPages_fresh env cfg (scanQuery (cfg_folderId cfg) sinceIso)
              (drive env (listArgs (scanQuery (cfg_folderId cfg) sinceIso) None))
              None seen 0 (marked env P))
    as (c & evs & -> & Hq & _).
  exists (omap listed_args evs). split; [|done].
  destruct c as [[seen' count]|e]; cbn; [|done].
  rewrite omap_app. cbn. by rewrite app_nil_r.
Qed.

(** The folder of a loaded configuration is the property FOLDER_ID. *)
Lemma config_folder (P : Props) cfg :
  config P = Some cfg → P !! "FOLDER_ID"%string = Some (cfg_folderId cfg).
Proof.
  unfold config, loadConfig, bind, getProperty, throw, ret. cbn.
  destruct (P !! "FOLDER_ID"%string) as [folder|]; [|done].
  destruct (falsy _ || falsy _ || falsy _); [done|]. by intros [= <-].
Qed.

(** C7.  With a configuration loaded, a numeric LOOKBACK_MINUTES (the
    default 5 when it is not set) and a readable cache, [computeSinceIso]
    returns the ISO text of the invocation time minus [lookbackMinutes]
    minutes, and the invocation scans: its first call of the Drive has no
    page token, and every call carries the query for the files that are in
    the configured folder (the property FOLDER_ID), not trashed and created
    at or after that bound. *)
Theorem scan_window env (P : Props) cfg (lookback : Z) :
  config P = Some cfg →
  lookbackMinutes cfg = Some lookback →
  Z.abs (now env - lookback * 60 * 1000) ≤ JsDate.max_time →
  is_Some (cache P) →
  let sinceIso := JsDate.format (now env - lookback * 60 * 1000) in
  (∀ w, fst (computeSinceIso env (lookbackMinutes cfg) w) = Normal sinceIso)
  ∧ (∃ rest,
       omap listed_args (trace (snd (invoke env P)))
       = listArgs (scanQuery (cfg_folderId cfg) sinceIso) None :: rest
       ∧ Forall (λ a, q a = scanQuery (cfg_folderId cfg) sinceIso) rest)
  ∧ scanQuery (cfg_folderId cfg) sinceIso
    = ("'" ++ cfg_folderId cfg
         ++ "' in parents and trashed = false and createdTime >= '"
         ++ sinceIso ++ "'")%string
  ∧ P !! "FOLDER_ID"%string = Some (cfg_folderId cfg).
Proof.
  intros Hcfg Hlook Hrange [seen Hseen]. cbn zeta.
  assert (JsDate.toISOString (since env (lookbackMinutes cfg))
          = Some (JsDate.format (now env - lookback * 60 * 1000))) as Hiso.
  { unfold since. rewrite Hlook. cbn.
    by rewrite (proj2 (Z.leb_le _ _) Hrange). }
  split_and!.
  - intros w. unfold computeSinceIso, bind. cbn [isoString JsDate.toISOString].
    unfold ret at 1. unfold setProperty.
    change (isoString ?d) with (isoString (since env (lookbackMinutes cfg))).
    unfold isoString. by rewrite Hiso.
  - by apply (invoke_listing env P cfg _ seen).
  - reflexivity.
  - by apply config_folder.
Qed.

Lemma scan_window_witness :
  (∀ w, fst (computeSinceIso
               (Sample.env_at Sample.T [Sample.file "f1"] Sample.accept)
               (Some 5) w)
        = Normal "2025-09-12T02:55:00.000Z"%string)
  ∧ ∃ rest,
      omap listed_args
        (trace (snd (invoke (Sample.env_at Sample.T [Sample.file "f1"]
                               Sample.accept) Sample.configured)))
      = listArgs
          "'folder1' in parents and trashed = false and createdTime >= '2025-09-12T02:55:00.000Z'"
          None :: rest.
Proof.
  destruct (scan_window
              (Sample.env_at Sample.T [Sample.file "f1"] Sample.accept)
              Sample.configured
              {| cfg_folderId := "folder1";
                 endpoint := "https://ingress.example/";
                 apiKey := "k"; lookbackMinutes := Some 5 |} 5)
    as (Hsince & (rest & Hlist & _) & _ & _).
  - vm_compute. reflexivity.
  - reflexivity.
  - vm_compute. discriminate.
  - vm_compute. eexists. reflexivity.
  - split; [exact Hsince|]. exists rest. exact Hlist.
Defined.

(** *** The seen-id cache *)

(** C6.  The cache holds at most 500 ids and gives up the oldest first.
    [loadSeenIds] keeps the last 500 entries of the stored array (the most
    recent ones) and returns at most 500 ids.  [persistSeenIds] stores the
    set without its first (oldest) ids beyond 500: at most 500 ids, all of
    them when there are no more than 500, and reading the stored text back
    gives exactly these. *)
Theorem seen_ids_capacity :
  (∀ w arr,
     JSON.parse (or_default (props w !! "SEEN_IDS_JSON"%string) "[]") = Some arr →
     ∃ seen,
       loadSeenIds w = (Normal seen, w)
       ∧ seen = set_of_array (drop (length arr - 500) arr)
       ∧ (length seen ≤ 500)%nat
       ∧ ∀ x, x ∈ seen ↔ x ∈ drop (length arr - 500) arr)
  ∧ (∀ (seen : JsSet) w,
       let kept := drop (length seen - 500) seen in
       persistSeenIds seen w
       = (Normal tt,
          {| props := <["SEEN_IDS_JSON"%string := JSON.stringify kept]> (props w);
             fetches := fetches w;
             trace := trace w
                      ++ [EvSetProperty "SEEN_IDS_JSON" (JSON.stringify kept)] |})
       ∧ JSON.parse (JSON.stringify kept) = Some kept
       ∧ length kept = (500 `min` length seen)%nat
       ∧ seen = take (length seen - 500) seen ++ kept
       ∧ ((length seen ≤ 500)%nat → kept = seen)).
Proof.
  split.
  - intros w arr Hparse.
    exists (set_of_array (slice_last 500 arr)).
    split_and!.
    + unfold loadSeenIds, bind, getProperty. by rewrite Hparse.
    + done.
    + etrans; [apply (length_distinct (A:=string))|].
      rewrite length_slice_last. lia.
    + intros x. apply (elem_of_distinct (A:=string)).
  - intros seen w. cbn zeta. split_and!.
    + done.
    + apply parse_stringify.
    + apply (length_slice_last 500 seen).
    + by rewrite take_drop.
    + intros Hle. by apply (slice_last_all 500 seen).
Qed.

Lemma seen_ids_capacity_witness :
  ∃ seen,
    loadSeenIds (start (<["SEEN_IDS_JSON"%string := Sample.stored_ids]> ∅))
    = (Normal seen,
       start (<["SEEN_IDS_JSON"%string := Sample.stored_ids]> ∅))
    ∧ seen = ["a"; "b"]%string.
Proof.
  destruct seen_ids_capacity as [Hload _].
  destruct (Hload (start (<["SEEN_IDS_JSON"%string := Sample.stored_ids]> ∅))
              ["a"; "b"; "a"]%string) as (seen & Heq & Hseen & _).
  - vm_compute. reflexivity.
  - exists seen. split; [exact Heq|]. rewrite Hseen. vm_compute. reflexivity.
Defined.

(** *** The six scans of the design *)

Lemma invocations_lookup P envs (k : nat) r :
  invocations P envs !! k = Some r →
  ∃ env, envs !! k = Some env ∧ r = invoke env (props_after P (take k envs)).
Proof.
  revert P k. induction envs as [|env envs IH]; intros P k; [done|].
  destruct k as [|k]; cbn [invocations].
  - intros [= <-]. by exists env.
  - intros Hr. destruct (IH _ _ Hr) as (env' & Henv' & ->).
    exists env'. split; [done|]. done.
Qed.

(** Each of the six scans is shown the file. *)
Lemma six_scans_listed :
  map (λ env, id <$> listed (drive env (listArgs
                 (scanQuery "folder1"
                    (JsDate.format (now env - 5 * 60 * 1000))) None)))
      Sample.six_scans
  = replicate 6 ["f1"%string].
Proof. vm_compute. reflexivity. Qed.

Lemma six_scans_forwarded :
  forwarded_by (invocations Sample.configured Sample.six_scans)
  = ["f1"%string].
Proof. vm_compute. reflexivity. Qed.

Lemma six_scans_complete :
  Forall completes (invocations Sample.configured Sample.six_scans).
Proof. vm_compute. repeat constructor. Qed.

(** C4.  In an invocation that runs to completion, an id is in the persisted
    cache only if it was in the loaded cache or its hand-off was confirmed
    in this invocation.  A file that was not in the cache and whose hand-off
    was not confirmed is not in the persisted cache; and the next invocation
    that runs to completion and is shown the file makes a fetch for it. *)
Theorem cached_only_when_confirmed env P w :
  invoke env P = (Normal tt, w) →
  ∃ old later,
    cache P = Some old
    ∧ cache (props w) = Some later
    ∧ (∀ x, x ∈ later → x ∈ old ∨ x ∈ forwarded (trace w))
    ∧ ∀ f : DriveFile,
        id f ∉ old → id f ∉ forwarded (trace w) →
        (id f ∉ later)
        ∧ (∀ env' w' a,
             invoke env' (props w) = (Normal tt, w') →
             head (omap listed_args (trace w')) = Some a →
             f ∈ listed (drive env' a) →
             id f ∈ omap attempted (trace w')).
Proof.
  intros Hinv.
  destruct (invoke_cache env P w Hinv) as (old & Hold & _ & _ & Hnew).
  exists old, (slice_last 500 (old ++ forwarded (trace w))).
  assert (∀ x, x ∈ slice_last 500 (old ++ forwarded (trace w)) →
               x ∈ old ∨ x ∈ forwarded (trace w)) as Hsub.
  { intros x Hx. apply elem_of_app.
    destruct (slice_last_suffix 500 (old ++ forwarded (trace w))) as [k Hk].
    rewrite Hk. apply elem_of_app. by right. }
  split_and!; [done..|].
  intros f Hnot_old Hnot_fwd.
  assert (id f ∉ slice_last 500 (old ++ forwarded (trace w))) as Hnot_new.
  { intros [?|?]%Hsub; done. }
  split; [done|].
  intros env' w' a Hinv' Ha Hlisted.
  destruct (invoke_normal env' (props w) w' Hinv')
    as (cfg & sinceIso & seen & evs & count & _ & _ & Hseen & -> & _ & _
        & Hall).
  destruct (closed_trace env' (props w)
              (listArgs (scanQuery (cfg_folderId cfg) sinceIso) None)
              evs (seen ++ forwarded evs) count sinceIso) as (_ & Hatt & Hl).
  cbn zeta in Hatt, Hl, Hall. rewrite Hl in Ha. injection Ha as <-.
  rewrite Hatt. rewrite Hnew in Hseen. injection Hseen as <-.
  destruct (Hall f Hlisted) as [?|?]; done.
Qed.

Lemma refused_scan :
  invoke (Sample.env_at Sample.T [Sample.file "f1"] Sample.refuse)
    Sample.configured
  = (Normal tt,
     snd (invoke (Sample.env_at Sample.T [Sample.file "f1"] Sample.refuse)
            Sample.configured)).
Proof. vm_compute. reflexivity. Qed.

Lemma accepted_scan_after_refused :
  invoke (Sample.scan_at (Sample.T + 60000) [Sample.file "f1"] Sample.accept)
    (props (snd (invoke (Sample.env_at Sample.T [Sample.file "f1"]
                           Sample.refuse) Sample.configured)))
  = (Normal tt,
     snd (invoke (Sample.scan_at (Sample.T + 60000) [Sample.file "f1"]
                    Sample.accept)
            (props (snd (invoke (Sample.env_at Sample.T [Sample.file "f1"]
                                   Sample.refuse) Sample.configured))))).
Proof. vm_compute. reflexivity. Qed.

(** A scan in which the Ingress function refuses the file three times
    leaves the cache empty, and the scan of the next minute makes a fetch
    for the file. *)
Lemma cached_only_when_confirmed_witness :
  (∃ later,
     cache (props (snd (invoke (Sample.env_at Sample.T [Sample.file "f1"]
                                  Sample.refuse) Sample.configured)))
     = Some later
     ∧ "f1"%string ∉ later)
  ∧ "f1"%string
    ∈ omap attempted
        (trace (snd (invoke (Sample.scan_at (Sample.T + 60000)
                               [Sample.file "f1"] Sample.accept)
                       (props (snd (invoke (Sample.env_at Sample.T
                                              [Sample.file "f1"] Sample.refuse)
                                      Sample.configured)))))).
Proof.
  destruct (cached_only_when_confirmed _ _ _ refused_scan)
    as (old & later & Hold & Hlater & _ & Hleft).
  destruct (Hleft (Sample.file "f1")) as [Hout Hnext].
  - assert (old = []) as ->.
    { assert (cache Sample.configured = Some []) as Hc
        by (vm_compute; reflexivity).
      rewrite Hc in Hold. by injection Hold. }
    apply not_elem_of_nil.
  - assert (forwarded
              (trace (snd (invoke (Sample.env_at Sample.T [Sample.file "f1"]
                                     Sample.refuse) Sample.configured)))
            = []) as -> by (vm_compute; reflexivity).
    apply not_elem_of_nil.
  - split; [exists later; split; [exact Hlater|exact Hout]|].
    apply (Hnext _ _
             (listArgs
                (scanQuery "folder1" (JsDate.format (Sample.T + 60000 - 5 * 60 * 1000)))
                None)
             accepted_scan_after_refused).
    + vm_compute. reflexivity.
    + vm_compute. apply list_elem_of_here.
Defined.

End PollerProperties.

(* ===================================================================== *)
(** ** Facts about the footer formula                                     *)
(* ===================================================================== *)

Section SheetsFacts.
Import Sheets.

Lemma filter_ext_in {A : Type} (P Q : A → Prop)
    `{!∀ x, Decision (P x), !∀ x, Decision (Q x)} (l : list A) :
  (∀ x, x ∈ l → (P x ↔ Q x)) → filter P l = filter Q l.
Proof.
  induction l as [|x l IH]; intros Hext; [done|].
  assert (filter P l = filter Q l) as Hl.
  { apply IH. intros y Hy. apply Hext. by apply list_elem_of_further. }
  destruct (decide (P x)) as [HP|HP].
  - rewrite !filter_cons_True; [by rewrite Hl|..]; [|done].
    apply Hext; [apply list_elem_of_here|done].
  - rewrite !filter_cons_False; [done|..]; [|done].
    intros HQ. apply HP. apply Hext; [apply list_elem_of_here|done].
Qed.

Lemma filter_map {A B : Type} (f : A → B) (P : B → Prop)
    `{!∀ y, Decision (P y)} (l : list A) :
  filter P (map f l) = map f (filter (λ x, P (f x)) l).
Proof.
  induction l as [|x l IH]; [done|]. cbn [map].
  destruct (decide (P (f x))) as [HP|HP].
  - rewrite !filter_cons_True by done. cbn [map]. by rewrite IH.
  - rewrite !filter_cons_False by done. done.
Qed.

Lemma functional_app_l {K V : Type} (l g : list (K * V)) :
  functional (l ++ g) → functional l.
Proof.
  intros Hf k v v' Hv Hv'. apply (Hf k); apply elem_of_app; by left.
Qed.

Lemma functional_filter {K V : Type} (P : K * V → Prop)
    `{!∀ p, Decision (P p)} (l : list (K * V)) :
  functional l → functional (filter P l).
Proof.
  intros Hf k v v' [_ Hv]%list_elem_of_filter [_ Hv']%list_elem_of_filter.
  by apply (Hf k).
Qed.

(** The distinct pairs of a functional list are the pairs of its distinct
    first components. *)
Lemma distinct_functional {K V : Type} `{EqDecision K, EqDecision V}
    (l : list (K * V)) :
  functional l → map fst (distinct l) = distinct (map fst l).
Proof.
  induction l as [|[k v] l IH] using rev_ind; intros Hf; [done|].
  rewrite map_app. cbn [map fst]. rewrite !distinct_snoc.
  specialize (IH (functional_app_l _ _ Hf)).
  assert ((k, v) ∈ distinct l ↔ k ∈ distinct (map fst l)) as Hiff.
  { rewrite !elem_of_distinct. split.
    - intros Hin. apply list_elem_of_In, in_map_iff. exists (k, v).
      split; [done|]. by apply list_elem_of_In.
    - intros ((k' & v') & Hk & Hin)%list_elem_of_In%in_map_iff.
      cbn in Hk. subst k'. apply list_elem_of_In in Hin.
      assert (v' = v) as ->; [|done].
      apply (Hf k); apply elem_of_app; [by left|right].
      apply list_elem_of_here. }
  unfold add_new. case_bool_decide as Hin.
  - rewrite bool_decide_eq_true_2 by (by apply Hiff). done.
  - rewrite bool_decide_eq_false_2 by (by rewrite <- Hiff).
    rewrite map_app. cbn. by rewrite IH.
Qed.

Lemma FILTER_ok_rows rs :
  well_kept rs → FILTER rs = map (λ r, (image_hash r, total r)) (ok_rows rs).
Proof.
  intros [Hstatus _]. unfold FILTER, ok_rows. f_equal.
  apply filter_ext_in. intros r Hr. unfold text_differs.
  destruct (Hstatus r Hr) as [-> | ->]; cbn; split; done.
Qed.

Lemma functional_ok_rows rs :
  well_kept rs → functional (map (λ r, (image_hash r, total r)) (ok_rows rs)).
Proof.
  intros [_ Htotal] k v v'.
  intros (r & [= -> ->] & [_ Hr]%list_elem_of_filter)%list_elem_of_fmap.
  intros (r' & [= Hk ->] & [_ Hr']%list_elem_of_filter)%list_elem_of_fmap.
  by apply Htotal.
Qed.

Lemma total_of_ok_row rs r :
  well_kept rs → r ∈ ok_rows rs → total_of rs (image_hash r) = total r.
Proof.
  intros [_ Htotal] Hr. unfold total_of.
  destruct (filter (λ r0, image_hash r0 = image_hash r) (ok_rows rs))
    as [|r0 rest] eqn:Hfilter.
  - assert (r ∈ @nil Row) as Hin.
    { rewrite <- Hfilter. by apply list_elem_of_filter. }
    by apply elem_of_nil in Hin.
  - assert (r0 ∈ r0 :: rest) as Hin by apply list_elem_of_here.
    rewrite <- Hfilter in Hin. apply list_elem_of_filter in Hin as [Hh Hin].
    apply Htotal; [|by apply list_elem_of_filter in Hr as [_ ?]|done].
    by apply list_elem_of_filter in Hin as [_ ?].
Qed.

(** On the rows a writer leaves, the footer formula is the sum of [total]
    over the distinct content identities with status OK. *)
Lemma month_total_ok_total rs : well_kept rs → month_total rs = ok_total rs.
Proof.
  intros Hkept. unfold month_total, QUERY_sum, UNIQUE, ok_total, ok_identities.
  rewrite (FILTER_ok_rows rs Hkept). f_equal.
  set (pairs := map (λ r, (image_hash r, total r)) (ok_rows rs)).
  rewrite filter_distinct.
  assert (functional (filter (λ p : string * Amount, p.1 ≠ ""%string) pairs))
    as Hfun by apply functional_filter, functional_ok_rows, Hkept.
  assert (map image_hash (ok_rows rs) = map fst pairs) as ->.
  { unfold pairs. rewrite map_map. done. }
  rewrite (filter_map fst (λ h, h ≠ ""%string) pairs).
  rewrite <- (distinct_functional _ Hfun), map_map.
  apply map_ext_in. intros [h t] Hin%list_elem_of_In.
  apply (proj1 (elem_of_distinct _ _)) in Hin.
  apply list_elem_of_filter in Hin as [_ Hin].
  apply list_elem_of_fmap in Hin as (r & [= -> ->] & Hr). cbn.
  symmetry. by apply total_of_ok_row.
Qed.

End SheetsFacts.

(* ===================================================================== *)
(** ** The properties of the ledger                                       *)
(* ===================================================================== *)

Section SheetsProperties.
Import Sheets.

Lemma rendered_rows_shared o r :
  r ∈ rendered_rows o →
  image_hash r = source_image_hash (norm o)
  ∧ total r = n_total (norm o)
  ∧ status r = status_text (o_status o).
Proof.
  unfold rendered_rows. destruct (items (norm o)) as [|it its].
  - by intros ->%list_elem_of_singleton.
  - by intros (it' & -> & _)%list_elem_of_fmap.
Qed.

Lemma rendered_rows_bear o :
  Exists (bears (source_image_hash (norm o))) (rendered_rows o).
Proof.
  unfold rendered_rows. destruct (items (norm o)) as [|it its];
    by apply Exists_cons_hd.
Qed.

Lemma well_kept_nil : well_kept [].
Proof. split; [by intros r ?%elem_of_nil|by intros r r' ?%elem_of_nil]. Qed.

Lemma well_kept_append rs o :
  well_kept rs →
  ¬ Exists (bears (source_image_hash (norm o))) rs →
  well_kept (rs ++ rendered_rows o).
Proof.
  intros [Hstatus Htotal] Hnew. split.
  - intros r [Hr|Hr]%elem_of_app; [by apply Hstatus|].
    destruct (rendered_rows_shared o r Hr) as (_ & _ & ->).
    destruct (o_status o); [by left|by right].
  - intros r r' [Hr|Hr]%elem_of_app [Hr'|Hr']%elem_of_app Heq.
    + by apply Htotal.
    + destruct (rendered_rows_shared o r' Hr') as (Hh & _ & _).
      exfalso. apply Hnew, Exists_exists. exists r. split; [done|].
      unfold bears. congruence.
    + destruct (rendered_rows_shared o r Hr) as (Hh & _ & _).
      exfalso. apply Hnew, Exists_exists. exists r'. split; [done|].
      unfold bears. congruence.
    + destruct (rendered_rows_shared o r Hr) as (_ & -> & _).
      by destruct (rendered_rows_shared o r' Hr') as (_ & -> & _).
Qed.

Lemma kept_empty : kept ∅.
Proof. intros month l. by rewrite lookup_empty. Qed.

Lemma kept_write wb o : kept wb → kept (write wb o).
Proof.
  intros Hkept month l. unfold write.
  destruct (wb !! month_key o) as [l0|] eqn:Hl0; cbn [default].
  - destruct (Hkept _ _ Hl0) as [Hwell Hagg].
    case_bool_decide as Hex.
    + rewrite insert_id by done. apply Hkept.
    + destruct (decide (month_key o = month)) as [<-|Hne].
      * rewrite lookup_insert_eq. intros [= <-]. cbn.
        split; [by apply well_kept_append|done].
      * rewrite lookup_insert_ne by done. apply Hkept.
  - rewrite bool_decide_eq_false_2 by (by intros ?%Exists_nil).
    destruct (decide (month_key o = month)) as [<-|Hne].
    + rewrite lookup_insert_eq. intros [= <-]. cbn.
      split; [|done].
      apply (well_kept_append [] o); [apply well_kept_nil|by intros ?%Exists_nil].
    + rewrite lookup_insert_ne by done. apply Hkept.
Qed.

Lemma kept_deliver wb os : kept wb → kept (deliver wb os).
Proof.
  revert wb. induction os as [|o os IH]; intros wb Hkept; [done|].
  apply IH. by apply kept_write.
Qed.

(** C1.  In every month tab of a workbook that the writer built from any
    deliveries, repeated ones included, the aggregate row holds the sum of
    [total] over the distinct content identities that a row with status OK
    bears; the rows with status NEEDS REVIEW do not count.  It is the value
    of the footer formula of the README on the rows the writer leaves. *)
Theorem aggregate_sums_ok_identities (os : list Outcome) month l :
  deliver ∅ os !! month = Some l →
  aggregate l = Some (ok_total (rows l))
  ∧ month_total (rows l) = ok_total (rows l).
Proof.
  intros Hl. destruct (kept_deliver ∅ os kept_empty month l Hl) as [Hwell ->].
  by rewrite (month_total_ok_total _ Hwell).
Qed.

(** The scenario of the design: [h1] with total 23.00 and status OK, then
    the same delivery again, then a receipt that needs review. *)
Lemma aggregate_sums_ok_identities_witness :
  ∃ l,
    deliver ∅ [Sample.receipt_h1; Sample.receipt_h1; Sample.receipt_h2]
      !! "2025-09"%string = Some l
    ∧ aggregate l = Some 2300
    ∧ length (rows l) = 3%nat.
Proof.
  assert (deliver ∅ [Sample.receipt_h1; Sample.receipt_h1; Sample.receipt_h2]
            !! "2025-09"%string
          = Some (default new_ledger
                    (deliver ∅ [Sample.receipt_h1; Sample.receipt_h1;
                                Sample.receipt_h2] !! "2025-09"%string)))
    as Hl by (vm_compute; reflexivity).
  eexists. split; [exact Hl|].
  destruct (aggregate_sums_ok_identities _ _ _ Hl) as [Hagg _].
  split; [rewrite Hagg|]; vm_compute; reflexivity.
Defined.

Lemma row_count_bears (rs : list Row) (h : string) :
  (0 < length (filter (bears h) rs))%nat ↔ Exists (bears h) rs.
Proof.
  rewrite Exists_exists. split.
  - destruct (filter (bears h) rs) as [|r rest] eqn:Hf; cbn; [lia|].
    intros _. exists r.
    assert (r ∈ r :: rest) as Hin by apply list_elem_of_here.
    rewrite <- Hf in Hin. apply list_elem_of_filter in Hin as [? ?]. done.
  - intros (r & Hr & Hb).
    assert (r ∈ filter (bears h) rs) as Hin by (by apply list_elem_of_filter).
    destruct (filter (bears h) rs); [by apply elem_of_nil in Hin|cbn; lia].
Qed.

(** After a delivery a row of the month tab bears the content identity. *)
Lemma write_leaves_row (wb : Workbook) (o : Outcome) :
  (0 < row_count (write wb o) (month_key o) (source_image_hash (norm o)))%nat.
Proof.
  unfold row_count. apply row_count_bears. unfold write.
  case_bool_decide as Hex; rewrite lookup_insert_eq; cbn; [done|].
  apply Exists_app. right. apply rendered_rows_bear.
Qed.

Lemma write_idempotent (wb : Workbook) (o : Outcome) :
  write (write wb o) o = write wb o.
Proof.
  unfold write at 2 3.
  case_bool_decide as Hex.
  - unfold write. rewrite lookup_insert_eq. cbn [default].
    rewrite bool_decide_eq_true_2 by done. by rewrite insert_insert_eq.
  - unfold write. rewrite lookup_insert_eq. cbn [default].
    rewrite bool_decide_eq_true_2.
    + by rewrite insert_insert_eq.
    + cbn. apply Exists_app. right. apply rendered_rows_bear.
Qed.

(** The formula sums over the distinct pairs of [image_hash] and [total].
    On a tab in which two rows give one content identity two totals, which
    the writer never leaves but an edit by hand can, it counts both. *)
Remark month_total_sums_pairs :
  let row t :=
    {| date := "2025-09-10"; vendor := "7-Eleven"; item := "Milk 1L";
       qty := Some 1; unit_price := Some 650; line_total := Some 650;
       subtotal := 2180; tax := 120; total := t; currency := "MYR";
       payment_method := "Card"; receipt_id := "";
       image_hash := "sha256:h1"; status := "OK"; notes := "";
       file_link := "f1" |} in
  month_total [row 2300; row 2500] = 4800
  ∧ ok_total [row 2300; row 2500] = 2300.
Proof. vm_compute. split; reflexivity. Qed.

(** C2.  Delivering the same Validation Outcome again changes nothing: the
    writer appends only when no row of the month tab bears the content
    identity, and after a first delivery a row does.  So the number of rows
    that bear any content identity, this one among them, is the same after
    the repeated delivery, and it is not 0 for this one. *)
Theorem repeated_delivery_appends_nothing (wb : Workbook) (o : Outcome) :
  write (write wb o) o = write wb o
  ∧ (∀ h, row_count (write (write wb o) o) (month_key o) h
          = row_count (write wb o) (month_key o) h)
  ∧ (0 < row_count (write wb o) (month_key o) (source_image_hash (norm o)))%nat
  ∧ ((0 < row_count wb (month_key o) (source_image_hash (norm o)))%nat →
     ∀ h, row_count (write wb o) (month_key o) h
          = row_count wb (month_key o) h).
Proof.
  split_and!.
  - apply write_idempotent.
  - intros h. by rewrite write_idempotent.
  - apply write_leaves_row.
  - unfold row_count at 1. intros Hex%row_count_bears h. unfold write.
    rewrite bool_decide_eq_true_2 by done.
    unfold row_count. by rewrite lookup_insert_eq.
Qed.

Lemma repeated_delivery_appends_nothing_witness :
  row_count (write (write ∅ Sample.receipt_h1) Sample.receipt_h1)
    "2025-09" "sha256:h1" = 2%nat
  ∧ row_count (write ∅ Sample.receipt_h1) "2025-09" "sha256:h1" = 2%nat.
Proof.
  destruct (repeated_delivery_appends_nothing ∅ Sample.receipt_h1)
    as (_ & Hsame & _ & Hkeep).
  assert (row_count (write ∅ Sample.receipt_h1) "2025-09" "sha256:h1" = 2%nat)
    as Hfirst by (vm_compute; reflexivity).
  split; [|exact Hfirst].
  rewrite <- Hfirst. apply (Hsame "sha256:h1"%string).
Defined.

End SheetsProperties.

(* ===================================================================== *)
(** ** The property of the reconciliation                                 *)
(* ===================================================================== *)

Section ValidatorProperties.
Import Sheets Validator.
Context {Raw : Type}.


End ValidatorProperties.



(* ===================================================================== *)
(** ** The events of a scan                                               *)
(* ===================================================================== *)

Section ScanLogs.
Import Poller.

Lemma forEach_log env cfg files seen count w :
  ∃ evs,
    forEach (eachFile env cfg) files (seen, count) w
    = (Normal (seen ++ forwarded evs,
               count + Z.of_nat (length (forwarded evs))),
       advance w evs)
    ∧ visit_log cfg seen files evs.
Proof.
  revert seen count w. induction files as [|f files IH]; intros seen count w.
  { exists []. rewrite advance_nothing, app_nil_r, Z.add_0_r.
    split; [done|constructor]. }
  cbn [forEach]. unfold bind at 1. unfold eachFile at 1, set_has.
  case_bool_decide as Hseen.
  - unfold ret at 1. destruct (IH seen count w) as (evs & -> & Hlog).
    exists evs. split; [done|]. by constructor.
  - unfold postToIngress, attempts. unfold bind at 1.
    destruct (postAttempts_log env (endpoint cfg)
                (ingressOptions (apiKey cfg) (payloadOf cfg f)) 3 1 w)
      as (b & evs1 & Heq & Hlog & _).
    change (postAttempts env (endpoint cfg) _ 3 1 w)
      with (postAttempts env (endpoint cfg)
              (ingressOptions (apiKey cfg) (payloadOf cfg f)) 3 1 w).
    rewrite Heq. fold (advance w evs1).
    pose proof (log_forwarded _ _ _ _ _ _ Hlog) as Hfwd. cbn in Hfwd.
    destruct b; unfold ret at 1.
    + unfold set_add, set_has. rewrite bool_decide_eq_false_2 by done.
      destruct (IH (seen ++ [id f]) (count + 1) (advance w evs1))
        as (evs2 & -> & Hlog2).
      exists (evs1 ++ evs2). split.
      * rewrite advance_advance, forwarded_app, Hfwd, length_app, <- app_assoc.
        cbn [length]. do 3 f_equal. lia.
      * by apply (visit_post cfg seen f files true).
    + destruct (IH seen count (advance w evs1)) as (evs2 & -> & Hlog2).
      exists (evs1 ++ evs2). split.
      * rewrite advance_advance, forwarded_app, Hfwd. done.
      * by apply (visit_post cfg seen f files false).
Qed.

(** The paging loop: its events are those of [page_log]; it throws when the
    Drive does, and otherwise returns the set with the confirmed ids behind
    it and the count raised by their number. *)
Lemma pollPages_log env cfg query l tok seen count w :
  ∃ evs,
    page_log cfg query seen l tok evs
    ∧ pollPages env cfg query l tok (seen, count) w
      = (match failure l with
         | Some msg => Throw (DriveError msg)
         | None => Normal (seen ++ forwarded evs,
                           count + Z.of_nat (length (forwarded evs)))
         end, advance w evs).
Proof.
  revert tok seen count w.
  induction l as [msg|files|files next rest IH]; intros tok seen count w;
    cbn [pollPages failure]; unfold bind at 1; rewrite emit_list_advance.
  - exists [EvList (listArgs query tok)]. split; [constructor|done].
  - destruct (forEach_log env cfg (default [] files) seen count
                (advance w [EvList (listArgs query tok)]))
      as (evs & -> & Hlog).
    exists (EvList (listArgs query tok) :: evs).
    split; [by constructor|]. by rewrite advance_advance.
  - unfold bind.
    destruct (forEach_log env cfg (default [] files) seen count
                (advance w [EvList (listArgs query tok)]))
      as (evs1 & -> & Hlog1).
    rewrite advance_advance.
    destruct (decide (next = "")) as [->|Hnext].
    { exists (EvList (listArgs query tok) :: evs1).
      split; [by constructor|done]. }
    destruct (IH (Some next) (seen ++ forwarded evs1)
                (count + Z.of_nat (length (forwarded evs1)))
                (advance w ([EvList (listArgs query tok)] ++ evs1)))
      as (evs2 & Hlog2 & ->).
    exists (EvList (listArgs query tok) :: evs1 ++ evs2).
    split; [by constructor|].
    rewrite advance_advance.
    change (forwarded (EvList ?a :: evs1 ++ evs2))
      with (forwarded (evs1 ++ evs2)).
    rewrite forwarded_app, length_app, <- !app_assoc.
    destruct (failure rest); [done|]. do 3 f_equal. lia.
Qed.

(** An invocation that reaches the Drive: its events between the watermark
    and the end are those of [page_log]; it throws when the Drive does, and
    otherwise persists the cache and logs the count. *)
Lemma invoke_log env P l :
  listing env P = Some l →
  ∃ cfg sinceIso seen evs,
    config P = Some cfg
    ∧ JsDate.toISOString (since env (lookbackMinutes cfg)) = Some sinceIso
    ∧ cache P = Some seen
    ∧ l = drive env (listArgs (scanQuery (cfg_folderId cfg) sinceIso) None)
    ∧ page_log cfg (scanQuery (cfg_folderId cfg) sinceIso) seen l None evs
    ∧ invoke env P
      = match failure l with
        | Some msg => (Throw (DriveError msg), advance (marked env P) evs)
        | None =>
            (Normal tt,
             closed (advance (marked env P) evs) (seen ++ forwarded evs)
               (Z.of_nat (length (forwarded evs))) sinceIso)
        end.
Proof.
  unfold listing. rewrite invoke_unfold.
  destruct (config P) as [cfg|]; [|done].
  destruct (JsDate.toISOString _) as [sinceIso|] eqn:Hiso; [|done].
  destruct (cache P) as [seen|]; [|done]. intros [= <-]. cbn zeta.
  destruct (pollPages_log env cfg (scanQuery (cfg_folderId cfg) sinceIso)
              (drive env (listArgs (scanQuery (cfg_folderId cfg) sinceIso) None))
              None seen 0 (marked env P))
    as (evs & Hlog & ->).
  exists cfg, sinceIso, seen, evs. split_and!; [done..|].
  by destruct (failure _).
Qed.

(** An invocation that does not reach the Drive throws, having at most
    written the watermark. *)
Lemma invoke_no_listing env P :
  listing env P = None →
  ∃ e, invoke env P = (Throw e, start P)
       ∨ invoke env P = (Throw e, marked env P).
Proof.
  unfold listing. rewrite invoke_unfold.
  destruct (config P) as [cfg|]; [|by eexists; left].
  destruct (JsDate.toISOString _) as [sinceIso|]; [|by eexists; right].
  destruct (cache P) as [seen|]; [done|by eexists; right].
Qed.

End ScanLogs.

(* ===================================================================== *)
(** ** What the events of a scan are                                      *)
(* ===================================================================== *)

Section LogFacts.
Import Poller.

Lemma sum_app (l g : list Z) : sum (l ++ g) = sum l + sum g.
Proof. unfold sum. induction l as [|x l IH]; cbn; [done|]. rewrite IH. lia. Qed.

Lemma refusals_app x evs1 evs2 :
  refusals x (evs1 ++ evs2) = (refusals x evs1 + refusals x evs2)%nat.
Proof. unfold refusals. by rewrite filter_app, length_app. Qed.

Section Attempts.
Context (url : string) (options : FetchOptions).

Lemma log_fetches n i b evs u o res :
  attempt_log url options n i b evs →
  EvFetch u o res ∈ evs → u = url ∧ o = options.
Proof.
  induction 1 as [|n i code content Hc|n i code content b evs Hc _ IH|n i e b evs _ IH].
  - by intros ?%elem_of_nil.
  - by intros [= -> -> ->]%list_elem_of_singleton.
  - intros [[= -> -> ->]|[[=]|[[=]|?]%elem_of_cons]%elem_of_cons]%elem_of_cons;
      auto.
  - intros [[= -> -> ->]|[[=]|[[=]|?]%elem_of_cons]%elem_of_cons]%elem_of_cons;
      auto.
Qed.

Lemma log_quiet n i b evs :
  attempt_log url options n i b evs →
  omap written evs = [] ∧ omap logged evs = [].
Proof. induction 1; done. Qed.

(** The fetches and the sleeps of one [postToIngress]. *)
Lemma log_cost b evs :
  attempt_log url options 3 1 b evs →
  (length (fetch_results evs) ≤ 3)%nat ∧ sum (omap slept evs) ≤ 3000.
Proof.
  intros Hlog.
  destruct (log_attempts _ _ _ _ _ _ Hlog) as (Hlen & _ & _ & ->).
  split; [done|].
  pose proof (length_filter (λ r, answered r = false) (fetch_results evs)) as Hf.
  destruct (length (filter _ (fetch_results evs))) as [|[|[|[|k]]]];
    cbn; lia.
Qed.

(** A [postToIngress] that returns [false] was refused as many times as it
    had attempts. *)
Lemma log_refusals n i evs :
  attempt_log url options n i false evs →
  refusals (fileId (payload options)) evs = n.
Proof.
  remember false as b eqn:Hb.
  induction 1 as [|n i code content Hc|n i code content b evs Hc _ IH|n i e b evs _ IH];
    [done|done|..]; specialize (IH Hb); unfold refusals in *; cbn [filter].
  - rewrite filter_cons_True.
    + rewrite !filter_cons_False by (cbn; tauto). cbn [length]. by rewrite IH.
    + cbn. rewrite bool_decide_eq_true_2 by done. by rewrite Hc.
  - rewrite filter_cons_True.
    + rewrite !filter_cons_False by (cbn; tauto). cbn [length]. by rewrite IH.
    + cbn. by rewrite bool_decide_eq_true_2.
Qed.

End Attempts.

Section Visits.
Context (cfg : Config).

Lemma visit_log_quiet seen files evs :
  visit_log cfg seen files evs →
  omap listed_args evs = [] ∧ omap written evs = [] ∧ omap logged evs = [].
Proof.
  induction 1 as [|seen f files evs _ _ IH|seen f files b evs1 evs2 _ Hlog _ IH];
    [done|done|].
  destruct IH as (Hl & Hw & Hg).
  destruct (log_quiet _ _ _ _ _ _ Hlog) as [Hw1 Hg1].
  rewrite !omap_app, Hl, Hw, Hg, Hw1, Hg1, (log_no_list _ _ _ _ _ _ Hlog).
  done.
Qed.

Lemma visit_log_cost seen files evs :
  visit_log cfg seen files evs →
  (length (fetch_results evs) ≤ 3 * length files)%nat
  ∧ sum (omap slept evs) ≤ 3000 * Z.of_nat (length files).
Proof.
  induction 1 as [|seen f files evs _ _ IH|seen f files b evs1 evs2 _ Hlog _ IH].
  - done.
  - cbn [length]. lia.
  - destruct (log_cost _ _ _ _ Hlog) as [H1 H2]. destruct IH as [H3 H4].
    unfold fetch_results in *. rewrite !omap_app, length_app, sum_app.
    cbn [length]. lia.
Qed.

Lemma visit_log_fetches seen files evs url o res :
  visit_log cfg seen files evs →
  EvFetch url o res ∈ evs →
  url = endpoint cfg
  ∧ ∃ f, f ∈ files ∧ (id f ∉ seen)
         ∧ o = ingressOptions (apiKey cfg) (payloadOf cfg f).
Proof.
  induction 1 as [|seen f files evs Hf _ IH|seen f files b evs1 evs2 Hf Hlog _ IH].
  - by intros ?%elem_of_nil.
  - intros Hin. destruct (IH Hin) as (-> & g & Hg & Hns & ->).
    split; [done|]. exists g. split_and!; [|done..]. by apply list_elem_of_further.
  - intros [Hin|Hin]%elem_of_app.
    + destruct (log_fetches _ _ _ _ _ _ _ _ _ Hlog Hin) as [-> ->].
      split; [done|]. exists f. split_and!; [apply list_elem_of_here|done..].
    + destruct (IH Hin) as (-> & g & Hg & Hns & ->).
      split; [done|]. exists g. split_and!; [by apply list_elem_of_further| |done].
      intros Hseen. apply Hns. destruct b; [|done]. apply elem_of_app. by left.
Qed.

(** No file of the page is passed over: its id was in the set, or its
    hand-off is confirmed, or it was refused three times. *)
Lemma visit_log_covers seen files evs f :
  visit_log cfg seen files evs →
  f ∈ files →
  id f ∈ seen ∨ id f ∈ forwarded evs ∨ (3 ≤ refusals (id f) evs)%nat.
Proof.
  induction 1 as [|seen g files evs Hg _ IH|seen g files b evs1 evs2 Hg Hlog _ IH].
  - by intros ?%elem_of_nil.
  - intros [->|Hin]%elem_of_cons; [by left|auto].
  - pose proof (log_forwarded _ _ _ _ _ _ Hlog) as Hfwd. cbn in Hfwd.
    rewrite forwarded_app, refusals_app, Hfwd.
    intros [->|Hin]%elem_of_cons.
    + destruct b.
      * right. left. apply elem_of_app. left. apply list_elem_of_here.
      * right. right. pose proof (log_refusals _ _ _ _ _ Hlog) as Hr.
        cbn in Hr. rewrite Hr. lia.
    + destruct (IH Hin) as [Hs|[Hf|Hr]].
      * destruct b; [|by left].
        apply elem_of_app in Hs as [?|Heq%list_elem_of_singleton]; [by left|].
        right. left. apply elem_of_app. left. rewrite Heq.
        apply list_elem_of_here.
      * right. left. apply elem_of_app. by right.
      * right. right. lia.
Qed.

End Visits.

Section Pages.
Context (cfg : Config) (query : string).

Lemma page_log_calls seen l tok evs :
  page_log cfg query seen l tok evs →
  omap listed_args evs = listArgs query <$> (tok :: (Some <$> tokens l))
  ∧ omap written evs = [] ∧ omap logged evs = [].
Proof.
  induction 1 as [seen msg tok|seen files tok evs Hv|seen files rest tok evs Hv
                 |seen files next rest tok evs1 evs2 Hnext Hv _ IH].
  - done.
  - destruct (visit_log_quiet _ _ _ _ Hv) as (Hl & Hw & Hg). cbn.
    by rewrite Hl, Hw, Hg.
  - destruct (visit_log_quiet _ _ _ _ Hv) as (Hl & Hw & Hg). cbn.
    by rewrite Hl, Hw, Hg.
  - destruct (visit_log_quiet _ _ _ _ Hv) as (Hl & Hw & Hg).
    destruct IH as (Hl2 & Hw2 & Hg2). cbn [tokens].
    rewrite decide_False by done. cbn.
    rewrite !omap_app, Hl, Hw, Hg, Hl2, Hw2, Hg2. done.
Qed.

Lemma page_log_cost seen l tok evs :
  page_log cfg query seen l tok evs →
  (length (fetch_results evs) ≤ 3 * length (listed l))%nat
  ∧ sum (omap slept evs) ≤ 3000 * Z.of_nat (length (listed l)).
Proof.
  induction 1 as [seen msg tok|seen files tok evs Hv|seen files rest tok evs Hv
                 |seen files next rest tok evs1 evs2 Hnext Hv _ IH].
  - done.
  - apply (visit_log_cost _ _ _ _ Hv).
  - cbn [listed]. rewrite decide_True, app_nil_r by done.
    apply (visit_log_cost _ _ _ _ Hv).
  - destruct (visit_log_cost _ _ _ _ Hv) as [H1 H2]. destruct IH as [H3 H4].
    cbn [listed]. rewrite decide_False by done.
    change (fetch_results (EvList ?a :: evs1 ++ evs2))
      with (fetch_results (evs1 ++ evs2)).
    change (omap slept (EvList ?a :: evs1 ++ evs2))
      with (omap slept (evs1 ++ evs2)).
    unfold fetch_results in *. rewrite !omap_app, !length_app, sum_app. lia.
Qed.

Lemma page_log_fetches seen l tok evs url o res :
  page_log cfg query seen l tok evs →
  EvFetch url o res ∈ evs →
  url = endpoint cfg
  ∧ ∃ f, f ∈ listed l ∧ (id f ∉ seen)
         ∧ o = ingressOptions (apiKey cfg) (payloadOf cfg f).
Proof.
  induction 1 as [seen msg tok|seen files tok evs Hv|seen files rest tok evs Hv
                 |seen files next rest tok evs1 evs2 Hnext Hv _ IH].
  - by intros [[=]|?%elem_of_nil]%elem_of_cons.
  - intros [[=]|Hin]%elem_of_cons. apply (visit_log_fetches _ _ _ _ _ _ _ Hv Hin).
  - intros [[=]|Hin]%elem_of_cons. cbn [listed].
    rewrite decide_True, app_nil_r by done.
    apply (visit_log_fetches _ _ _ _ _ _ _ Hv Hin).
  - cbn [listed]. rewrite decide_False by done.
    intros [[=]|[Hin|Hin]%elem_of_app]%elem_of_cons.
    + destruct (visit_log_fetches _ _ _ _ _ _ _ Hv Hin) as (-> & f & Hf & Hns & ->).
      split; [done|]. exists f. split_and!; [|done..]. apply elem_of_app. by left.
    + destruct (IH Hin) as (-> & f & Hf & Hns & ->).
      split; [done|]. exists f. split_and!; [| |done].
      * apply elem_of_app. by right.
      * intros Hs. apply Hns. apply elem_of_app. by left.
Qed.

Lemma page_log_covers seen l tok evs f :
  page_log cfg query seen l tok evs →
  f ∈ listed l →
  id f ∈ seen ∨ id f ∈ forwarded evs ∨ (3 ≤ refusals (id f) evs)%nat.
Proof.
  induction 1 as [seen msg tok|seen files tok evs Hv|seen files rest tok evs Hv
                 |seen files next rest tok evs1 evs2 Hnext Hv _ IH].
  - by intros ?%elem_of_nil.
  - intros Hin. apply (visit_log_covers _ _ _ _ _ Hv Hin).
  - cbn [listed]. rewrite decide_True, app_nil_r by done.
    intros Hin. apply (visit_log_covers _ _ _ _ _ Hv Hin).
  - cbn [listed]. rewrite decide_False by done.
    change (forwarded (EvList ?a :: evs1 ++ evs2))
      with (forwarded (evs1 ++ evs2)).
    change (refusals (id f) (EvList ?a :: evs1 ++ evs2))
      with (refusals (id f) (evs1 ++ evs2)).
    rewrite forwarded_app, refusals_app.
    intros [Hin|Hin]%elem_of_app.
    + destruct (visit_log_covers _ _ _ _ _ Hv Hin) as [?|[?|?]].
      * by left.
      * right. left. apply elem_of_app. by left.
      * right. right. lia.
    + destruct (IH Hin) as [[?|?]%elem_of_app|[?|?]].
      * by left.
      * right. left. apply elem_of_app. by left.
      * right. left. apply elem_of_app. by right.
      * right. right. lia.
Qed.

End Pages.

End LogFacts.

(* ===================================================================== *)
(** ** The events of an invocation                                        *)
(* ===================================================================== *)

Section InvocationEvents.
Import Poller.

Lemma fresh_list seen a evs : fresh seen evs → fresh seen (EvList a :: evs).
Proof. done. Qed.

Lemma visit_log_fresh cfg seen files evs :
  visit_log cfg seen files evs → fresh seen evs.
Proof.
  induction 1 as [seen|seen f files evs Hin _ IH
                 |seen f files b evs1 evs2 Hnin Hlog _ IH].
  - apply visit_fresh, visit_nothing.
  - done.
  - pose proof (log_forwarded _ _ _ _ _ _ Hlog) as Hfwd. cbn in Hfwd.
    apply fresh_app.
    + split.
      * intros x Hx.
        apply (log_attempted_only _ _ _ _ _ _ _ Hlog) in Hx. cbn in Hx.
        by subst x.
      * intros Hnd. rewrite Hfwd. destruct b; [|by rewrite app_nil_r].
        apply NoDup_app. split_and!; [done| |apply NoDup_singleton].
        intros x Hx Heq%list_elem_of_singleton. by subst x.
    + rewrite Hfwd. destruct b; [done|by rewrite app_nil_r].
Qed.

Lemma page_log_fresh cfg query seen l tok evs :
  page_log cfg query seen l tok evs → fresh seen evs.
Proof.
  induction 1 as [seen msg tok|seen files tok evs Hlog
                 |seen files rest tok evs Hlog
                 |seen files next rest tok evs1 evs2 Hnext Hlog _ IH].
  - apply fresh_list, visit_fresh, visit_nothing.
  - by apply fresh_list, visit_log_fresh with cfg (default [] files).
  - by apply fresh_list, visit_log_fresh with cfg (default [] files).
  - apply fresh_list, fresh_app; [|done].
    by apply visit_log_fresh with cfg (default [] files).
Qed.

(** The events of an invocation are the write of the watermark, the events
    [evs] of the paging loop and, at the end of a complete one, the write of
    the cache and the log line; without a listing there are no events
    [evs]. *)
Lemma invoke_events env P :
  ∃ evs,
    match listing env P with
    | Some l =>
        ∃ cfg sinceIso seen,
          config P = Some cfg
          ∧ JsDate.toISOString (since env (lookbackMinutes cfg)) = Some sinceIso
          ∧ cache P = Some seen
          ∧ page_log cfg (scanQuery (cfg_folderId cfg) sinceIso) seen l None evs
          ∧ trace (snd (invoke env P))
            = EvSetProperty "LAST_RUN_ISO" (JsDate.format (now env)) :: evs
              ++ match failure l with
                 | Some _ => []
                 | None =>
                     [EvSetProperty "SEEN_IDS_JSON"
                        (JSON.stringify
                           (slice_last 500 (seen ++ forwarded evs)));
                      EvLog (Z.of_nat (length (forwarded evs))) sinceIso]
                 end
    | None =>
        evs = []
        ∧ (trace (snd (invoke env P)) = []
           ∨ trace (snd (invoke env P))
             = [EvSetProperty "LAST_RUN_ISO" (JsDate.format (now env))])
    end.
Proof.
  destruct (listing env P) as [l|] eqn:Hl.
  - destruct (invoke_log env P l Hl)
      as (cfg & sinceIso & seen & evs & Hcfg & Hiso & Hseen & _ & Hlog & ->).
    exists evs, cfg, sinceIso, seen. split_and!; [done..|].
    destruct (failure l); cbn; [by rewrite app_nil_r|done].
  - exists []. split; [done|].
    destruct (invoke_no_listing env P Hl) as (e & [-> | ->]); [by left|by right].
Qed.

(** What a reader of events that ignores the writes and the log line finds
    in the trace of an invocation is what it finds in the events of the
    paging loop. *)
Lemma invoke_reads env P evs :
  (trace (snd (invoke env P)) = []
   ∨ ∃ post,
       trace (snd (invoke env P))
       = EvSetProperty "LAST_RUN_ISO" (JsDate.format (now env)) :: evs ++ post
       ∧ (post = [] ∨ ∃ v c s, post = [EvSetProperty "SEEN_IDS_JSON" v;
                                       EvLog c s])) →
  evs = [] ∨ trace (snd (invoke env P)) ≠ [] →
  (∀ A (g : Event → option A),
     (∀ k v, g (EvSetProperty k v) = None) → (∀ c s, g (EvLog c s) = None) →
     omap g (trace (snd (invoke env P))) = omap g evs)
  ∧ (∀ x, refusals x (trace (snd (invoke env P))) = refusals x evs)
  ∧ (∀ u o res, EvFetch u o res ∈ trace (snd (invoke env P))
                ↔ EvFetch u o res ∈ evs).
Proof.
  intros [Htr | (post & Htr & Hpost)] Hevs.
  - destruct Hevs as [-> | ?]; [|done]. by rewrite Htr.
  - rewrite Htr. clear Htr Hevs. split_and!.
    + intros A g Hset Hlog.
      assert (∀ a l, omap g (a :: l) = omap g [a] ++ omap g l) as Hcons
        by (intros; apply (omap_app g [_])).
      rewrite Hcons, omap_app. cbn. rewrite Hset. cbn.
      destruct Hpost as [-> | (v & c & s & ->)]; cbn.
      * by rewrite app_nil_r.
      * by rewrite Hset, Hlog, app_nil_r.
    + intros x.
      assert (∀ a l, refusals x (a :: l) = (refusals x [a] + refusals x l)%nat)
        as Hcons by (intros; apply (refusals_app x [_])).
      rewrite Hcons, refusals_app.
      change (refusals x [EvSetProperty _ _]) with O.
      destruct Hpost as [-> | (v & c & s & ->)].
      * change (refusals x []) with O. lia.
      * change (refusals x [_; _]) with O. lia.
    + intros u o res. rewrite elem_of_cons, elem_of_app.
      destruct Hpost as [-> | (v & c & s & ->)].
      * split; [intros [?|[?|?%elem_of_nil]]; done|by right; left].
      * split; [|by right; left].
        intros [?|[?|Hin]]; [done..|].
        apply elem_of_cons in Hin as [?|Hin]; [done|].
        by apply list_elem_of_singleton in Hin.
Qed.

(** Both together. *)
Lemma invoke_scan env P :
  ∃ evs,
    match listing env P with
    | Some l =>
        ∃ cfg sinceIso seen,
          config P = Some cfg
          ∧ JsDate.toISOString (since env (lookbackMinutes cfg)) = Some sinceIso
          ∧ cache P = Some seen
          ∧ page_log cfg (scanQuery (cfg_folderId cfg) sinceIso) seen l None evs
    | None => evs = []
    end
    ∧ (∀ A (g : Event → option A),
         (∀ k v, g (EvSetProperty k v) = None) → (∀ c s, g (EvLog c s) = None) →
         omap g (trace (snd (invoke env P))) = omap g evs)
    ∧ (∀ x, refusals x (trace (snd (invoke env P))) = refusals x evs)
    ∧ (∀ u o res, EvFetch u o res ∈ trace (snd (invoke env P))
                  ↔ EvFetch u o res ∈ evs).
Proof.
  destruct (invoke_events env P) as (evs & H). exists evs.
  destruct (listing env P) as [l|].
  - destruct H as (cfg & sinceIso & seen & Hcfg & Hiso & Hseen & Hlog & Htr).
    split; [by exists cfg, sinceIso, seen|].
    apply invoke_reads.
    + right. eexists. split; [exact Htr|].
      destruct (failure l); [by left|right; by do 3 eexists].
    + right. by rewrite Htr.
  - destruct H as (-> & Htr). split; [done|].
    apply invoke_reads; [|by left].
    destruct Htr as [?|Htr]; [by left|].
    right. exists []. split; [done|by left].
Qed.

End InvocationEvents.

(* ===================================================================== *)
(** ** Overlapping scans                                                  *)
(* ===================================================================== *)

Section Handoffs.
Import Poller.

Lemma persisted_by_app rs1 rs2 :
  persisted_by (rs1 ++ rs2) = persisted_by rs1 ++ persisted_by rs2.
Proof. unfold persisted_by. by rewrite map_app, concat_app. Qed.

(** An invocation that throws leaves the stored cache as it was. *)
Lemma invoke_throw_cache env P e w :
  invoke env P = (Throw e, w) → cache (props w) = cache P.
Proof.
  intros Hinv. destruct (listing env P) as [l|] eqn:Hl.
  - destruct (invoke_log env P l Hl)
      as (cfg & sinceIso & seen & evs & _ & _ & _ & _ & _ & Heq).
    rewrite Hinv in Heq. destruct (failure l); [|done].
    injection Heq as _ ->. apply cache_insert_watermark.
  - destruct (invoke_no_listing env P Hl) as (e' & [Heq | Heq]);
      rewrite Hinv in Heq; injection Heq as _ ->; [done|].
    apply cache_insert_watermark.
Qed.

(** No invocation, whether it runs to completion or throws, makes a fetch
    for an id of the cache it loads. *)
Lemma invoke_skips env P seen x :
  cache P = Some seen → x ∈ seen →
  x ∉ omap attempted (trace (snd (invoke env P))).
Proof.
  intros Hseen Hx. destruct (invoke_scan env P) as (evs & Hscan & Hread & _).
  rewrite Hread by done. destruct (listing env P) as [l|].
  - destruct Hscan as (cfg & sinceIso & seen' & _ & _ & Hseen' & Hlog).
    rewrite Hseen in Hseen'. injection Hseen' as <-.
    destruct (page_log_fresh _ _ _ _ _ _ Hlog) as [Hatt _].
    intros Hin. by apply (Hatt x).
  - subst evs. apply not_elem_of_nil.
Qed.

(** The cache is the last 500 ids of a history: the ids loaded at first,
    followed by the ids confirmed since in the invocations that ran to
    completion.  Equal ids of the history are more than 500 positions
    apart. *)
Lemma invocations_persisted P envs (history : list string) :
  cache P = Some (slice_last 500 history) →
  spaced 500 history →
  let history' := history ++ persisted_by (invocations P envs) in
  spaced 500 history'
  ∧ cache (props_after P envs) = Some (slice_last 500 history').
Proof.
  revert P history. induction envs as [|env envs IH]; intros P history.
  { intros Hc Hs. cbn. by rewrite app_nil_r. }
  intros Hc Hs. cbn [invocations].
  change (props_after P (env :: envs))
    with (props_after (props (snd (invoke env P))) envs).
  change (persisted_by (?r :: ?rs))
    with (match fst r with
          | Normal _ => forwarded (trace (snd r))
          | Throw _ => []
          end ++ persisted_by rs).
  destruct (invoke env P) as [[[]|e] w] eqn:Hinv; cbn [fst snd].
  - destruct (invoke_cache env P w Hinv) as (seen & Hseen & _ & Hnd & Hnext).
    rewrite Hc in Hseen. injection Hseen as <-.
    rewrite slice_last_app in Hnext.
    destruct (IH (props w) (history ++ forwarded (trace w)) Hnext)
      as [Hs' Hc'].
    { by apply spaced_app. }
    cbn zeta in *. by rewrite app_assoc.
  - pose proof (invoke_throw_cache env P e w Hinv) as Hsame.
    rewrite <- Hsame in Hc. by apply (IH (props w) history).
Qed.

(** A file id whose hand-off was confirmed in an invocation that ran to
    completion, and that fewer than 500 such ids follow, is in the stored
    cache after that invocation and after every later one. *)
Lemma persisted_then_cached P envs1 envs2 (f : string) :
  is_Some (cache P) →
  (∀ G1 G2, persisted_by (invocations P (envs1 ++ envs2)) = G1 ++ f :: G2 →
            f ∉ G1 → (length G2 < 500)%nat) →
  f ∈ persisted_by (invocations P envs1) →
  ∃ seen, cache (props_after P envs1) = Some seen ∧ f ∈ seen.
Proof.
  intros [seen0 Hseen0] Hfew Hin.
  rewrite invocations_app, persisted_by_app in Hfew.
  destruct (cache_history P seen0 Hseen0) as [Hc Hs].
  destruct (invocations_persisted P envs1 seen0 Hc Hs) as [_ Hcache].
  cbn zeta in Hcache. eexists. split; [exact Hcache|].
  destruct (list_elem_of_split_l _ _ Hin) as (A & B & HAB & HA).
  rewrite HAB in Hfew |- *.
  specialize (Hfew A (B ++ persisted_by
                        (invocations (props_after P envs1) envs2))).
  rewrite <- app_assoc in Hfew. specialize (Hfew eq_refl HA).
  rewrite length_app in Hfew.
  apply (elem_of_slice_last 500 _ (length seen0 + length A)).
  - rewrite lookup_app_r by lia.
    replace (length seen0 + length A - length seen0)%nat
      with (length A) by lia.
    by rewrite list_lookup_middle.
  - rewrite !length_app. cbn [length]. lia.
Qed.

Lemma forwarded_by_attempted rs (f : string) :
  Forall (λ r, f ∉ omap attempted (trace (snd r))) rs → f ∉ forwarded_by rs.
Proof.
  induction 1 as [|r rs Hr _ IH]; [apply not_elem_of_nil|].
  change (forwarded_by (r :: rs))
    with (forwarded (trace (snd r)) ++ forwarded_by rs).
  intros [Hin|Hin]%elem_of_app; [|done].
  by apply Hr, forwarded_attempted.
Qed.

(** C3, as the script has it.  Take any invocations, one after the other,
    whatever the Drive shows to each and whether they run to completion or
    throw, starting with a stored cache that is unset, empty or an array of
    strings, and with a LOOKBACK_MINUTES that is unset or an ASCII text (the
    texts on which the embedding is the script); and take a file id such
    that fewer than 500 ids enter the stored cache after it.  The ids that
    enter the stored cache are those whose hand-off is confirmed in an
    invocation that runs to completion: [pollFolder] stores the cache as its
    last step but one.  Then the id enters the stored cache at most once;
    and once its hand-off is confirmed in an invocation that runs to
    completion, the id is in the stored cache, no invocation that follows
    makes a fetch for it, and so none hands the file off again. *)
Theorem forwarded_at_most_once P envs (f : string) :
  is_Some (cache P) →
  ascii_text (or_default (P !! "LOOKBACK_MINUTES"%string) "5"%string) = true →
  (∀ G1 G2, persisted_by (invocations P envs) = G1 ++ f :: G2 →
            f ∉ G1 → (length G2 < 500)%nat) →
  (∀ i j : nat,
     persisted_by (invocations P envs) !! i = Some f →
     persisted_by (invocations P envs) !! j = Some f → i = j)
  ∧ ∀ envs1 envs2,
      envs = envs1 ++ envs2 →
      f ∈ persisted_by (invocations P envs1) →
      (∃ seen, cache (props_after P envs1) = Some seen ∧ f ∈ seen)
      ∧ Forall (λ r, f ∉ omap attempted (trace (snd r)))
               (invocations (props_after P envs1) envs2)
      ∧ f ∉ forwarded_by (invocations (props_after P envs1) envs2).
Proof.
  intros Hreadable _ Hfew. split.
  { destruct Hreadable as [seen0 Hseen0].
    destruct (cache_history P seen0 Hseen0) as [Hc Hs].
    destruct (invocations_persisted P envs seen0 Hc Hs) as [Hsp _].
    apply (spaced_once 500); [|done]. by apply (spaced_drop 500 seen0). }
  intros envs1 envs2 -> Hin.
  assert (Forall (λ r, f ∉ omap attempted (trace (snd r)))
            (invocations (props_after P envs1) envs2)) as Hskip.
  { apply Forall_lookup. intros k r Hr.
    destruct (invocations_lookup _ _ _ _ Hr) as (env & Henv & ->).
    rewrite <- props_after_app.
    rewrite <- (take_drop_middle envs2 k env Henv), app_assoc in Hfew.
    destruct (persisted_then_cached P (envs1 ++ take k envs2)
                (env :: drop (S k) envs2) f Hreadable Hfew)
      as (seen & Hseen & Hf).
    { rewrite invocations_app, persisted_by_app. apply elem_of_app. by left. }
    by apply (invoke_skips env _ seen). }
  split_and!; [by apply (persisted_then_cached P envs1 envs2)|done|].
  by apply forwarded_by_attempted.
Qed.

Lemma interrupted_scans_persisted :
  persisted_by (invocations Sample.configured Sample.interrupted_scans)
  = ["f1"%string].
Proof. vm_compute. reflexivity. Qed.

(** The scenario of the design, with an interruption: a lookback of 5
    minutes, an invocation every minute, and a file that every scan is
    shown.  The first scan hands it off; the second is cut short by the
    Drive after its first page, on which the file is; neither it nor the
    five that follow make a fetch for the file. *)
Lemma forwarded_at_most_once_witness :
  (∀ i j : nat,
     persisted_by (invocations Sample.configured Sample.interrupted_scans) !! i
     = Some "f1"%string →
     persisted_by (invocations Sample.configured Sample.interrupted_scans) !! j
     = Some "f1"%string → i = j)
  ∧ fst <$> invocations Sample.configured Sample.interrupted_scans
    = [Normal tt; Throw (DriveError "Drive unavailable"); Normal tt;
       Normal tt; Normal tt; Normal tt; Normal tt]
  ∧ Forall (λ r, "f1"%string ∉ omap attempted (trace (snd r)))
           (invocations
              (props_after Sample.configured (take 1 Sample.interrupted_scans))
              (drop 1 Sample.interrupted_scans))
  ∧ forwarded_by (invocations Sample.configured Sample.interrupted_scans)
    = ["f1"%string].
Proof.
  destruct (forwarded_at_most_once Sample.configured Sample.interrupted_scans
              "f1")
    as [Honce Hskip].
  - exists []. vm_compute. reflexivity.
  - vm_compute. reflexivity.
  - intros G1 G2 HG _. rewrite interrupted_scans_persisted in HG.
    apply (f_equal length) in HG. rewrite length_app in HG. cbn in HG. lia.
  - split; [exact Honce|]. split; [vm_compute; reflexivity|].
    destruct (Hskip (take 1 Sample.interrupted_scans)
                (drop 1 Sample.interrupted_scans)) as (_ & Hnone & _).
    + reflexivity.
    + vm_compute. apply list_elem_of_here.
    + split; [exact Hnone|]. vm_compute. reflexivity.
Defined.

(** C3, where the design's wording fails.  The set is stored at the end of
    [pollFolder] only.  A scan confirms the hand-off of the file and is then
    cut short by the Drive on its next page: the id is not in the stored
    cache, and the next scan, which is shown the file again, makes a fetch
    for it and hands it off a second time. *)
Lemma forwarded_again_after_throw :
  let later :=
    Sample.scan_at (Sample.T + 60000) [Sample.file "f1"] Sample.accept in
  let rs := invocations Sample.configured [Sample.cut_short; later] in
  fst <$> rs = [Throw (DriveError "Drive unavailable"); Normal tt]
  ∧ forwarded (trace (snd (invoke Sample.cut_short Sample.configured)))
    = ["f1"%string]
  ∧ cache (props_after Sample.configured [Sample.cut_short]) = Some []
  ∧ "f1"%string
      ∈ omap attempted
          (trace (snd (invoke later
                         (props_after Sample.configured [Sample.cut_short]))))
  ∧ forwarded_by rs = ["f1"; "f1"]%string.
Proof.
  vm_compute. split_and!; [reflexivity..|apply list_elem_of_here|reflexivity].
Qed.

End Handoffs.

(* ===================================================================== *)
(** ** More properties of the poller                                      *)
(* ===================================================================== *)

Section PollerCoverage.
Import Poller.

(** *** The stored cache *)

(** X1.  What [persistSeenIds] stores, [loadSeenIds] reads back: the last
    500 ids of the set, in the same order, whatever characters the ids
    hold. *)
Theorem persist_then_load (seen : JsSet) w :
  NoDup seen →
  loadSeenIds (snd (persistSeenIds seen w))
  = (Normal (slice_last 500 seen), snd (persistSeenIds seen w)).
Proof.
  intros Hnd. unfold persistSeenIds, setProperty, loadSeenIds, bind, getProperty.
  cbn [snd props]. rewrite lookup_insert_eq. unfold or_default.
  rewrite decide_False by apply stringify_not_empty.
  rewrite parse_stringify. unfold ret. do 2 f_equal.
  rewrite slice_last_all by (rewrite length_slice_last; lia).
  apply (distinct_NoDup (A:=string)). by apply NoDup_slice_last.
Qed.

Lemma persist_then_load_witness :
  fst (loadSeenIds (snd (persistSeenIds Sample.awkward_ids (start ∅))))
  = Normal Sample.awkward_ids.
Proof.
  rewrite (persist_then_load Sample.awkward_ids (start ∅)).
  - reflexivity.
  - apply (bool_decide_unpack _). vm_compute. exact I.
Defined.

(** X2.  Before anything was stored, and when the stored text is empty,
    [loadSeenIds] returns the empty set and changes nothing. *)
Theorem load_without_store w :
  props w !! "SEEN_IDS_JSON"%string = None
    ∨ props w !! "SEEN_IDS_JSON"%string = Some ""%string →
  loadSeenIds w = (Normal [], w).
Proof.
  intros H. unfold loadSeenIds, bind, getProperty.
  by destruct H as [-> | ->].
Qed.

Lemma load_without_store_witness :
  loadSeenIds (start Sample.configured) = (Normal [], start Sample.configured).
Proof.
  apply load_without_store. left. vm_compute. reflexivity.
Defined.

(** *** The configuration *)

(** X3.  [loadConfig] changes nothing.  It returns a configuration exactly
    when FOLDER_ID, INGRESS_URL and API_KEY are set to texts that are not
    empty, and the configuration holds these three texts; in every other
    case it throws the error of the missing properties: an empty text counts
    as missing.  The lookback of the configuration comes from
    LOOKBACK_MINUTES, or from ["5"] when that property is unset or empty:
    for an ASCII text, it is not a number when no digit follows the leading
    white space and the sign, and it is the integer of the leading digits,
    with the sign, when that is at most 2^53 in absolute value. *)
Theorem loadConfig_reads w :
  let set_to (key text : string) :=
    props w !! key = Some text ∧ text ≠ ""%string in
  let raw := or_default (props w !! "LOOKBACK_MINUTES"%string) "5"%string in
  snd (loadConfig w) = w
  ∧ ((∃ cfg, fst (loadConfig w) = Normal cfg)
     ↔ (∃ text, set_to "FOLDER_ID"%string text)
       ∧ (∃ text, set_to "INGRESS_URL"%string text)
       ∧ (∃ text, set_to "API_KEY"%string text))
  ∧ (∀ e, fst (loadConfig w) = Throw e → e = MissingProperties)
  ∧ (∀ cfg,
       fst (loadConfig w) = Normal cfg →
       set_to "FOLDER_ID"%string (cfg_folderId cfg)
       ∧ set_to "INGRESS_URL"%string (endpoint cfg)
       ∧ set_to "API_KEY"%string (apiKey cfg)
       ∧ (ascii_text raw = true →
          match parseInt raw with
          | None => lookbackMinutes cfg = None
          | Some m => Z.abs m ≤ 2 ^ 53 → lookbackMinutes cfg = Some m
          end)).
Proof.
  cbn zeta. unfold loadConfig, bind, getProperty, throw, ret, falsy.
  destruct (props w !! "FOLDER_ID"%string) as [f|];
    [destruct (decide (f = ""%string)) as [->|Hf]|];
    (destruct (props w !! "INGRESS_URL"%string) as [u|];
      [destruct (decide (u = ""%string)) as [->|Hu]|]);
    (destruct (props w !! "API_KEY"%string) as [k|];
      [destruct (decide (k = ""%string)) as [->|Hk]|]);
    cbn; (split; [done|]);
    (split;
      [split;
        [intros [cfg [=]]; subst; eauto 10
        |intros ([? [[=] ?]] & [? [[=] ?]] & [? [[=] ?]]); subst; eauto; done]
      |]);
    (split; [by intros e [= <-]|]);
    intros [f' u' k' m'] [=]; subst; cbn.
  split_and!; [done..|]. intros _. by destruct (parseInt _).
Qed.

Lemma loadConfig_reads_witness :
  ∃ cfg, fst (loadConfig (start Sample.configured)) = Normal cfg
         ∧ cfg_folderId cfg = "folder1"%string
         ∧ lookbackMinutes cfg = Some 5.
Proof.
  destruct (loadConfig_reads (start Sample.configured))
    as (_ & [_ Hloads] & _ & Hreads).
  destruct Hloads as [cfg Hcfg].
  { split_and!; eexists; (split; [reflexivity|discriminate]). }
  exists cfg. split; [exact Hcfg|].
  destruct (Hreads cfg Hcfg) as ([Hf _] & _ & _ & Hlook).
  split.
  - change (Some "folder1"%string = Some (cfg_folderId cfg)) in Hf.
    by injection Hf.
  - specialize (Hlook eq_refl).
    change (Z.abs 5 ≤ 2 ^ 53 → lookbackMinutes cfg = Some 5) in Hlook.
    apply Hlook. vm_compute. discriminate.
Defined.

(** *** Invocations that stop early *)

(** X4.  With a configuration whose LOOKBACK_MINUTES is an ASCII text that
    gives no number, or a number so large that the bound of the window is
    not a valid date, the invocation throws a RangeError at
    [since.toISOString()]: the watermark is written by then, the Drive is
    not called, nothing is fetched and the cache is not written. *)
Theorem invalid_lookback env P cfg :
  config P = Some cfg →
  ascii_text (or_default (P !! "LOOKBACK_MINUTES"%string) "5"%string) = true →
  lookbackMinutes cfg = None
    ∨ (∃ m, lookbackMinutes cfg = Some m
            ∧ JsDate.max_time < Z.abs (now env - m * 60 * 1000)) →
  invoke env P = (Throw RangeError, marked env P).
Proof.
  intros Hcfg _ Hbad. rewrite invoke_unfold, Hcfg.
  replace (JsDate.toISOString (since env (lookbackMinutes cfg))) with
    (@None string); [done|].
  unfold since. destruct Hbad as [-> | (m & -> & Hm)]; [done|].
  cbn. by rewrite (proj2 (Z.leb_gt _ _) Hm).
Qed.

Lemma invalid_lookback_witness :
  invoke (Sample.env_at Sample.T [Sample.file "f1"] Sample.accept)
         (<["LOOKBACK_MINUTES" := "soon"]> Sample.configured)
  = (Throw RangeError,
     marked (Sample.env_at Sample.T [Sample.file "f1"] Sample.accept)
            (<["LOOKBACK_MINUTES" := "soon"]> Sample.configured)).
Proof.
  apply (invalid_lookback _ _
           {| cfg_folderId := "folder1"; endpoint := "https://ingress.example/";
              apiKey := "k"; lookbackMinutes := None |}).
  - vm_compute. reflexivity.
  - vm_compute. reflexivity.
  - left. reflexivity.
Defined.

(** X5.  When the Drive throws, on the first page or on a later one, the
    invocation throws the same: the only property written is the watermark
    and nothing is logged; the properties are those of the start with the
    watermark. *)
Theorem drive_failure env P l msg :
  listing env P = Some l → failure l = Some msg →
  fst (invoke env P) = Throw (DriveError msg)
  ∧ props (snd (invoke env P))
    = <["LAST_RUN_ISO" := JsDate.format (now env)]> P
  ∧ omap written (trace (snd (invoke env P)))
    = [("LAST_RUN_ISO"%string, JsDate.format (now env))]
  ∧ omap logged (trace (snd (invoke env P))) = [].
Proof.
  intros Hl Hfail.
  destruct (invoke_log env P l Hl)
    as (cfg & sinceIso & seen & evs & _ & _ & _ & _ & Hlog & ->).
  rewrite Hfail. cbn [fst snd advance extend props trace marked].
  destruct (page_log_calls _ _ _ _ _ _ Hlog) as (_ & Hw & Hg).
  split_and!; [done..| |].
  - by rewrite omap_app, Hw.
  - by rewrite omap_app, Hg.
Qed.

Lemma drive_failure_witness :
  fst (invoke Sample.cut_short Sample.configured)
  = Throw (DriveError "Drive unavailable")
  ∧ forwarded (trace (snd (invoke Sample.cut_short Sample.configured)))
    = ["f1"%string].
Proof.
  split.
  - apply (drive_failure Sample.cut_short Sample.configured
             (ListMore (Some [Sample.file "f1"]) "page2"
                (ListThrow "Drive unavailable"))).
    + vm_compute. reflexivity.
    + vm_compute. reflexivity.
  - vm_compute. reflexivity.
Defined.

(** X6.  With a stored cache that is unset, empty or the text of an array
    of strings, and a LOOKBACK_MINUTES that is unset or an ASCII text, an
    invocation runs to completion exactly when it has a listing (a
    configuration and a valid bound of the window) and the Drive throws on
    none of the pages the loop reads.  Whether hand-offs are confirmed,
    refused or fail plays no part. *)
Theorem completes_iff env P :
  is_Some (cache P) →
  ascii_text (or_default (P !! "LOOKBACK_MINUTES"%string) "5"%string) = true →
  completes (invoke env P) ↔ ∃ l, listing env P = Some l ∧ failure l = None.
Proof.
  intros _ _. unfold completes. split.
  - intros Hdone. destruct (listing env P) as [l|] eqn:Hl.
    + exists l. split; [done|].
      destruct (invoke_log env P l Hl)
        as (cfg & sinceIso & seen & evs & _ & _ & _ & _ & _ & Hinv).
      rewrite Hinv in Hdone. by destruct (failure l).
    + destruct (invoke_no_listing env P Hl) as (e & [Hinv | Hinv]);
        by rewrite Hinv in Hdone.
  - intros (l & Hl & Hfail).
    destruct (invoke_log env P l Hl)
      as (cfg & sinceIso & seen & evs & _ & _ & _ & _ & _ & ->).
    by rewrite Hfail.
Qed.

Lemma completes_iff_witness :
  completes (invoke Sample.two_pages Sample.configured)
  ∧ ¬ completes (invoke Sample.cut_short Sample.configured).
Proof.
  split.
  - apply completes_iff;
      [exists []; vm_compute; reflexivity|vm_compute; reflexivity|].
    eexists. split; vm_compute; reflexivity.
  - intros H. apply completes_iff in H as (l & Hl & Hfail);
      [|exists []; vm_compute; reflexivity|vm_compute; reflexivity].
    vm_compute in Hl. injection Hl as <-. vm_compute in Hfail. discriminate.
Defined.

(** X7.  With a stored cache that can be read, an invocation that does not
    run to completion leaves the stored cache as it was, also when hand-offs
    were confirmed before it threw. *)
Theorem cache_kept_on_throw env P :
  is_Some (cache P) →
  ¬ completes (invoke env P) →
  props (snd (invoke env P)) !! "SEEN_IDS_JSON"%string
  = P !! "SEEN_IDS_JSON"%string.
Proof.
  intros _ Hnot. destruct (listing env P) as [l|] eqn:Hl.
  - destruct (invoke_log env P l Hl)
      as (cfg & sinceIso & seen & evs & _ & _ & _ & _ & _ & Hinv).
    rewrite Hinv in Hnot |- *. destruct (failure l); [|done].
    cbn. by rewrite lookup_insert_ne.
  - destruct (invoke_no_listing env P Hl) as (e & [-> | ->]); [done|].
    cbn. by rewrite lookup_insert_ne.
Qed.

Lemma cache_kept_on_throw_witness :
  props (snd (invoke Sample.cut_short Sample.configured))
    !! "SEEN_IDS_JSON"%string = None
  ∧ forwarded (trace (snd (invoke Sample.cut_short Sample.configured)))
    = ["f1"%string].
Proof.
  split.
  - rewrite (cache_kept_on_throw Sample.cut_short Sample.configured).
    + vm_compute. reflexivity.
    + exists []. vm_compute. reflexivity.
    + vm_compute. discriminate.
  - vm_compute. reflexivity.
Defined.

(** *** Invocations that run to completion *)

(** X8.  An invocation that runs to completion writes two properties, the
    watermark and then the cache, and logs one line.  The count of the line
    is the number of hand-offs confirmed in the invocation, its date the
    bound of the window; the cache written is the last 500 of the loaded
    cache followed by the ids confirmed, in the order of the
    confirmations. *)
Theorem completed_invocation env P cfg sinceIso seen :
  completes (invoke env P) →
  config P = Some cfg →
  JsDate.toISOString (since env (lookbackMinutes cfg)) = Some sinceIso →
  cache P = Some seen →
  let r := invoke env P in
  let stored :=
    JSON.stringify (slice_last 500 (seen ++ forwarded (trace (snd r)))) in
  omap logged (trace (snd r))
  = [(Z.of_nat (length (forwarded (trace (snd r)))), sinceIso)]
  ∧ omap written (trace (snd r))
    = [("LAST_RUN_ISO"%string, JsDate.format (now env));
       ("SEEN_IDS_JSON"%string, stored)]
  ∧ props (snd r)
    = <["SEEN_IDS_JSON" := stored]>
        (<["LAST_RUN_ISO" := JsDate.format (now env)]> P).
Proof.
  intros Hdone Hcfg Hiso Hseen. cbn zeta.
  assert (listing env P
          = Some (drive env (listArgs (scanQuery (cfg_folderId cfg) sinceIso)
                               None))) as Hl
    by (unfold listing; by rewrite Hcfg, Hiso, Hseen).
  destruct (invoke_log env P _ Hl)
    as (cfg' & sinceIso' & seen' & evs & Hcfg' & Hiso' & Hseen' & _ & Hlog
        & Hinv).
  rewrite Hcfg in Hcfg'. injection Hcfg' as <-.
  rewrite Hiso in Hiso'. injection Hiso' as <-.
  rewrite Hseen in Hseen'. injection Hseen' as <-.
  unfold completes in Hdone. rewrite Hinv in Hdone |- *.
  destruct (failure _); [done|]. clear Hdone Hinv.
  destruct (page_log_calls _ _ _ _ _ _ Hlog) as (_ & Hw & Hg).
  cbn [fst snd advance extend closed props trace marked fetches].
  assert (forwarded
            ([EvSetProperty "LAST_RUN_ISO" (JsDate.format (now env))] ++ evs
             ++ [EvSetProperty "SEEN_IDS_JSON"
                   (JSON.stringify (slice_last 500 (seen ++ forwarded evs)));
                 EvLog (Z.of_nat (length (forwarded evs))) sinceIso])
          = forwarded evs) as Hfwd.
  { rewrite !forwarded_app. cbn. by rewrite app_nil_r. }
  rewrite <- !app_assoc. rewrite Hfwd. split_and!.
  - rewrite !omap_app, Hg. done.
  - rewrite !omap_app, Hw. done.
  - done.
Qed.

Lemma completed_invocation_witness :
  omap logged
    (trace (snd (invoke Sample.two_pages Sample.configured)))
  = [(2, "2025-09-12T02:55:00.000Z"%string)]
  ∧ props (snd (invoke Sample.two_pages Sample.configured))
      !! "SEEN_IDS_JSON"%string
    = Some (JSON.stringify ["f1"; "f3"]%string).
Proof.
  destruct (completed_invocation Sample.two_pages Sample.configured
              {| cfg_folderId := "folder1";
                 endpoint := "https://ingress.example/";
                 apiKey := "k"; lookbackMinutes := Some 5 |}
              "2025-09-12T02:55:00.000Z" [])
    as (Hlog & _ & Hprops);
    [vm_compute; reflexivity..|].
  split.
  - rewrite Hlog. vm_compute. reflexivity.
  - rewrite Hprops. vm_compute. reflexivity.
Defined.


(** *** What an invocation leaves alone *)

(** The configuration depends on four properties only. *)
Lemma config_ext (P Q : Props) :
  (∀ k, k ≠ "LAST_RUN_ISO"%string → k ≠ "SEEN_IDS_JSON"%string →
        Q !! k = P !! k) →
  config Q = config P.
Proof.
  intros H. unfold config, loadConfig, bind, getProperty.
  cbn [start props fst snd].
  rewrite (H "FOLDER_ID"%string), (H "INGRESS_URL"%string),
    (H "API_KEY"%string), (H "LOOKBACK_MINUTES"%string) by discriminate.
  by destruct (_ || _).
Qed.

Lemma invoke_frame env P k :
  k ≠ "LAST_RUN_ISO"%string → k ≠ "SEEN_IDS_JSON"%string →
  props (snd (invoke env P)) !! k = P !! k.
Proof.
  intros Hlast Hseen. destruct (listing env P) as [l|] eqn:Hl.
  - destruct (invoke_log env P l Hl)
      as (cfg & sinceIso & seen & evs & _ & _ & _ & _ & _ & ->).
    destruct (failure l); cbn.
    + by rewrite lookup_insert_ne.
    + by rewrite !lookup_insert_ne.
  - destruct (invoke_no_listing env P Hl) as (e & [-> | ->]); [done|].
    cbn. by rewrite lookup_insert_ne.
Qed.

(** X9.  An invocation, whether it runs to completion or throws, writes no
    property other than LAST_RUN_ISO and SEEN_IDS_JSON and deletes none:
    every other property, set or not, is after the invocation what it was
    before. *)
Theorem other_properties_kept env P k :
  k ≠ "LAST_RUN_ISO"%string → k ≠ "SEEN_IDS_JSON"%string →
  props (snd (invoke env P)) !! k = P !! k.
Proof. apply invoke_frame. Qed.

Lemma other_properties_kept_witness :
  props (snd (invoke Sample.two_pages Sample.configured)) !! "API_KEY"%string
  = Some "k"%string.
Proof.
  rewrite (other_properties_kept Sample.two_pages Sample.configured "API_KEY");
    [vm_compute; reflexivity|discriminate..].
Defined.

(** X10.  The configuration that an invocation loads is the one the first
    invocation loaded, however many invocations ran in between and however
    they ended: the script does not change its own configuration. *)
Theorem config_kept P envs :
  config (props_after P envs) = config P.
Proof.
  revert P. induction envs as [|env envs IH]; intros P; [done|].
  change (props_after P (env :: envs))
    with (props_after (props (snd (invoke env P))) envs).
  rewrite IH. apply config_ext. intros k. apply invoke_frame.
Qed.

(** *** What an invocation sends *)

(** X11.  In one invocation no hand-off is confirmed twice, also when the
    Drive lists a file on two pages, and no fetch is made for an id of the
    loaded cache. *)
Theorem no_repeat_within_invocation env P :
  NoDup (forwarded (trace (snd (invoke env P))))
  ∧ ∀ seen x, cache P = Some seen → x ∈ seen →
              x ∉ omap attempted (trace (snd (invoke env P))).
Proof.
  destruct (invoke_scan env P) as (evs & Hscan & Hread & _).
  unfold forwarded. rewrite !Hread by done.
  destruct (listing env P) as [l|].
  - destruct Hscan as (cfg & sinceIso & seen & _ & _ & Hseen & Hlog).
    destruct (page_log_fresh _ _ _ _ _ _ Hlog) as [Hatt Hnd].
    split.
    + destruct (cache_bounded P seen Hseen) as [Hseen_nd _].
      by apply Hnd, NoDup_app in Hseen_nd as (_ & _ & ?).
    + intros seen' x Hseen' Hx Hin. rewrite Hseen in Hseen'.
      injection Hseen' as <-. by apply (Hatt x).
  - subst evs. split; [constructor|]. intros seen x _ _ Hin.
    by apply elem_of_nil in Hin.
Qed.

(** X12.  With a stored cache that can be read, an invocation makes at
    most three fetches for each file of the pages it reads, a file counting
    once for each time it is listed, and sleeps at most 3000 ms for each. *)
Theorem invocation_cost env P :
  is_Some (cache P) →
  let tr := trace (snd (invoke env P)) in
  (length (fetch_results tr) ≤ 3 * length (scanned env P))%nat
  ∧ sum (omap slept tr) ≤ 3000 * Z.of_nat (length (scanned env P)).
Proof.
  intros _. cbn zeta. destruct (invoke_scan env P) as (evs & Hscan & Hread & _).
  unfold fetch_results, scanned. rewrite !Hread by done.
  destruct (listing env P) as [l|].
  - destruct Hscan as (cfg & sinceIso & seen & _ & _ & _ & Hlog).
    apply (page_log_cost _ _ _ _ _ _ Hlog).
  - subst evs. cbn. unfold sum. cbn. lia.
Qed.

Lemma invocation_cost_witness :
  (length (fetch_results
             (trace (snd (invoke Sample.two_pages Sample.configured)))) ≤ 12)%nat.
Proof.
  destruct (invocation_cost Sample.two_pages Sample.configured) as [H _].
  - exists []. vm_compute. reflexivity.
  - exact H.
Defined.

(** X13.  With a stored cache [seen] that can be read, every fetch of an
    invocation goes to the configured endpoint, with the configured key, and
    carries the payload built from a file of the pages read whose id is not
    in [seen]. *)
Theorem fetches_carry_listed_files env P seen url options res :
  cache P = Some seen →
  EvFetch url options res ∈ trace (snd (invoke env P)) →
  ∃ cfg f,
    config P = Some cfg
    ∧ f ∈ scanned env P ∧ (id f ∉ seen)
    ∧ url = endpoint cfg
    ∧ options = ingressOptions (apiKey cfg) (payloadOf cfg f).
Proof.
  intros Hcache Hin.
  destruct (invoke_scan env P) as (evs & Hscan & _ & _ & Hfetch).
  apply Hfetch in Hin. unfold scanned.
  destruct (listing env P) as [l|].
  - destruct Hscan as (cfg & sinceIso & seen' & Hcfg & _ & Hseen & Hlog).
    rewrite Hcache in Hseen. injection Hseen as <-.
    destruct (page_log_fetches _ _ _ _ _ _ _ _ _ Hlog Hin)
      as (-> & f & Hf & Hnew & ->).
    by exists cfg, f.
  - subst evs. by apply elem_of_nil in Hin.
Qed.

Lemma fetches_carry_listed_files_witness :
  ∃ cfg f,
    config Sample.configured = Some cfg
    ∧ f ∈ scanned Sample.two_pages Sample.configured ∧ (id f ∉ [])
    ∧ "https://ingress.example/"%string = endpoint cfg
    ∧ ingressOptions "k" Sample.receipt
      = ingressOptions (apiKey cfg) (payloadOf cfg f).
Proof.
  apply (fetches_carry_listed_files Sample.two_pages Sample.configured []
           "https://ingress.example/" (ingressOptions "k" Sample.receipt)
           (FetchResponse 200 "ok")); [vm_compute; reflexivity|].
  vm_compute. apply list_elem_of_further, list_elem_of_further,
    list_elem_of_here.
Defined.

(** X14.  No file of the pages read is passed over in silence: its id is in
    the loaded cache, or its hand-off is confirmed in the invocation, or at
    least three fetches for it are refused or fail.  This holds also for
    the pages read before the Drive throws. *)
Theorem no_file_passed_over env P f :
  f ∈ scanned env P →
  (∃ seen, cache P = Some seen ∧ id f ∈ seen)
  ∨ id f ∈ forwarded (trace (snd (invoke env P)))
  ∨ (3 ≤ refusals (id f) (trace (snd (invoke env P))))%nat.
Proof.
  intros Hf. destruct (invoke_scan env P) as (evs & Hscan & Hread & Href & _).
  unfold forwarded, scanned in *. rewrite Hread, Href by done.
  destruct (listing env P) as [l|]; [|by apply elem_of_nil in Hf].
  destruct Hscan as (cfg & sinceIso & seen & _ & _ & Hseen & Hlog).
  destruct (page_log_covers _ _ _ _ _ _ _ Hlog Hf) as [?|[?|?]].
  - left. by exists seen.
  - right. by left.
  - right. by right.
Qed.

Lemma no_file_passed_over_witness :
  (∃ seen, cache Sample.configured = Some seen ∧ "f2"%string ∈ seen)
  ∨ "f2"%string
      ∈ forwarded (trace (snd (invoke Sample.two_pages Sample.configured)))
  ∨ (3 ≤ refusals "f2"
           (trace (snd (invoke Sample.two_pages Sample.configured))))%nat.
Proof.
  apply (no_file_passed_over Sample.two_pages Sample.configured
           (Sample.file "f2")).
  vm_compute. apply list_elem_of_further, list_elem_of_here.
Defined.

(** *** The calls of the Drive *)

(** X15.  The calls of the Drive follow the page tokens.  The first call
    passes no token; each further call passes the token that the answer
    before it returned; the loop ends with the first answer that returns no
    token, or an empty one, and with the first call that throws.  Every call
    has the same query and the same other arguments. *)
Theorem drive_calls_follow_tokens env P cfg sinceIso :
  config P = Some cfg →
  JsDate.toISOString (since env (lookbackMinutes cfg)) = Some sinceIso →
  is_Some (cache P) →
  let query := scanQuery (cfg_folderId cfg) sinceIso in
  omap listed_args (trace (snd (invoke env P)))
  = listArgs query
      <$> (None :: (Some <$> tokens (drive env (listArgs query None)))).
Proof.
  intros Hcfg Hiso [seen Hseen]. cbn zeta.
  destruct (invoke_scan env P) as (evs & Hscan & Hread & _).
  rewrite Hread by done. unfold listing in Hscan.
  rewrite Hcfg, Hiso, Hseen in Hscan.
  destruct Hscan as (cfg' & sinceIso' & seen' & [= <-] & Hiso' & _ & Hlog).
  rewrite Hiso in Hiso'. injection Hiso' as <-.
  by destruct (page_log_calls _ _ _ _ _ _ Hlog) as (-> & _).
Qed.

Lemma drive_calls_follow_tokens_witness :
  pageToken
    <$> omap listed_args
          (trace (snd (invoke Sample.two_pages Sample.configured)))
  = [None; Some "page2"%string].
Proof.
  rewrite (drive_calls_follow_tokens Sample.two_pages Sample.configured
             {| cfg_folderId := "folder1";
                endpoint := "https://ingress.example/";
                apiKey := "k"; lookbackMinutes := Some 5 |}
             "2025-09-12T02:55:00.000Z").
  - vm_compute. reflexivity.
  - vm_compute. reflexivity.
  - vm_compute. reflexivity.
  - exists []. vm_compute. reflexivity.
Defined.

(** *** The cache over many invocations *)

(** X16.  After any number of invocations that run to completion, the
    stored cache is the last 500 of: the cache loaded by the first one,
    followed by the ids of all the hand-offs confirmed since, in the order
    of the confirmations. *)
Theorem cache_after_invocations P envs seen :
  Forall completes (invocations P envs) →
  cache P = Some seen →
  cache (props_after P envs)
  = Some (slice_last 500 (seen ++ forwarded_by (invocations P envs))).
Proof.
  intros Hdone Hseen. destruct (cache_history P seen Hseen) as [Hlast Hsp].
  by destruct (invocations_spaced P envs seen Hdone Hlast Hsp) as [_ ?].
Qed.

Lemma cache_after_invocations_witness :
  cache (props_after Sample.configured Sample.six_scans)
  = Some ["f1"%string].
Proof.
  rewrite (cache_after_invocations Sample.configured Sample.six_scans []).
  - vm_compute. reflexivity.
  - apply Forall_forall. intros r Hr. vm_compute in Hr.
    repeat (apply elem_of_cons in Hr as [-> | Hr]; [reflexivity|]).
    by apply elem_of_nil in Hr.
  - vm_compute. reflexivity.
Defined.


(** *** One hand-off *)

Lemma log_stops url options n i b evs :
  attempt_log url options n i b evs →
  (∀ (k : nat) res, fetch_results evs !! k = Some res → answered res = true →
                    S k = length (fetch_results evs))
  ∧ length (omap warned evs)
    = length (filter (λ r, answered r = false) (fetch_results evs)).
Proof.
  induction 1 as [i|n i code content Hc|n i code content b evs Hc _ [IH1 IH2]
                 |n i e b evs _ [IH1 IH2]].
  - split; [by intros k res Hk|done].
  - split.
    + intros [|k] res Hk _; [done|]. by destruct k.
    + change (fetch_results [EvFetch ?u ?o ?r]) with [r].
      rewrite filter_cons_False; [done|]. cbn. by rewrite Hc.
  - split.
    + intros [|k] res Hk Hans.
      * injection Hk as <-. cbn in Hans. congruence.
      * cbn. f_equal. by apply (IH1 k res).
    + change (fetch_results (EvFetch ?u ?o ?r :: _ :: _ :: evs))
        with (r :: fetch_results evs).
      rewrite filter_cons_True by done. cbn. by rewrite IH2.
  - split.
    + intros [|k] res Hk Hans.
      * injection Hk as <-. done.
      * cbn. f_equal. by apply (IH1 k res).
    + change (fetch_results (EvFetch ?u ?o ?r :: _ :: _ :: evs))
        with (r :: fetch_results evs).
      rewrite filter_cons_True by done. cbn. by rewrite IH2.
Qed.

(** X17.  [postToIngress] returns at the first answer with a code in
    [200, 300): no fetch follows it.  It warns once for each attempt that
    was not answered so, and it writes no property. *)
Theorem postToIngress_stops env url apiKey obj w :
  ∃ evs,
    snd (postToIngress env url apiKey obj w)
    = extend w (length (fetch_results evs)) evs
    ∧ (∀ (k : nat) res,
         fetch_results evs !! k = Some res → answered res = true →
         S k = length (fetch_results evs))
    ∧ length (omap warned evs)
      = length (filter (λ r, answered r = false) (fetch_results evs))
    ∧ omap written evs = [].
Proof.
  unfold postToIngress, attempts.
  destruct (postAttempts_log env url (ingressOptions apiKey obj) 3 1 w)
    as (b & evs & -> & Hlog & _).
  exists evs. destruct (log_stops _ _ _ _ _ _ Hlog) as [Hstop Hwarn].
  split_and!; [done..|].
  by destruct (log_quiet _ _ _ _ _ _ Hlog).
Qed.


End PollerCoverage.

(* ===================================================================== *)
(** ** More properties of the footer formula                              *)
(* ===================================================================== *)

Section FormulaCoverage.
Import Sheets.

Lemma FILTER_snoc rows r :
  FILTER (rows ++ [r])
  = FILTER rows
    ++ (if text_differs (status r) "NEEDS REVIEW"
        then [(image_hash r, total r)] else []).
Proof.
  unfold FILTER. rewrite filter_app, map_app. f_equal.
  destruct (text_differs (status r) "NEEDS REVIEW") eqn:Hd.
  - rewrite filter_cons_True by (cbn; by rewrite Hd). done.
  - rewrite filter_cons_False by (cbn; rewrite Hd; cbn; tauto). done.
Qed.

(** X19.  What a row appended to the tab adds to the MONTH TOTAL cell: its
    [total], when its status is not NEEDS REVIEW, its [image_hash] is not
    blank and no earlier row of another status than NEEDS REVIEW has the
    same [image_hash] and [total]; nothing in every other case.  So the
    further item rows of a receipt add nothing, and neither does a row that
    needs review. *)
Theorem month_total_append rows r :
  month_total (rows ++ [r])
  = month_total rows
    + (if decide (text_differs (status r) "NEEDS REVIEW" = true
                  ∧ image_hash r ≠ ""%string
                  ∧ (image_hash r, total r) ∉ FILTER rows)
       then total r else 0).
Proof.
  unfold month_total, UNIQUE. rewrite FILTER_snoc.
  destruct (text_differs (status r) "NEEDS REVIEW").
  - rewrite distinct_snoc. unfold add_new.
    destruct (decide ((image_hash r, total r) ∈ FILTER rows)) as [Hin|Hnin].
    + rewrite bool_decide_eq_true_2 by by apply elem_of_distinct.
      rewrite decide_False by tauto. lia.
    + rewrite bool_decide_eq_false_2 by by rewrite elem_of_distinct.
      unfold QUERY_sum. rewrite filter_app, map_app, sum_app. f_equal.
      destruct (decide (image_hash r = ""%string)) as [Hblank|Hhash].
      * rewrite filter_cons_False by (cbn; tauto).
        rewrite decide_False by tauto. done.
      * rewrite filter_cons_True by done.
        rewrite decide_True by done. cbn. unfold sum. cbn. lia.
  - rewrite app_nil_r. rewrite decide_False by (intros [? _]; done). lia.
Qed.

End FormulaCoverage.
